(** * Proxy layer of mcp_agent: router and chain composition

    Shallow embedding of [src/mcp_agent/core/proxies.py].  Every
    [generate_str] of the source is an asynchronous call on a backend
    that may answer differently each time, may change the backend and
    may raise.  The embedding threads an explicit backend state and
    keeps a journal of the calls the proxy layer makes, so that "who was
    called, with which message and which keyword arguments" can be
    stated and proved. *)

From stdpp Require Import gmap strings list pretty.

Set Default Proof Using "Type".

(** ** Exceptions and outcomes *)

(** The exceptions that can cross this layer: the [KeyError] of a failed
    dictionary subscript, the [NotImplementedError] of the base class and
    whatever a backend raises. *)
Inductive exn : Type :=
  | KeyError (key : string)
  | NotImplementedError (msg : string)
  | BackendError (detail : string).

Inductive outcome (A : Type) : Type :=
  | Returned (a : A)
  | Raised (e : exn).
Arguments Returned {A} a.
Arguments Raised {A} e.

(** The line feed of the f-strings' [\n]. *)
Definition nl : string := String (Ascii.ascii_of_nat 10) EmptyString.

Declare Scope proxy_scope.
Delimit Scope proxy_scope with proxy.

Section Proxies.

(** [World] is the state of everything behind the proxies (the model
    servers, the host application); [Value] is the type of the values of
    keyword arguments. *)
Context {World Value : Type}.

(** An object with a method [generate_str(message, **kwargs)]: the
    proxies of the registry, whatever their class, and the [_llm] of an
    agent.  The caller sees its answer or its exception and the change
    of the backends.  [**kwargs] is a dictionary with string keys; a
    call without keyword arguments passes the empty one. *)
Record Endpoint : Type := mkEndpoint {
  _name : string;
  generate_str : string → gmap string Value → World → outcome string * World
}.

(** Modelled from the spec: [mcp_agent.agents.agent.Agent] is not among
    the sources; the proxies only reach its [_llm] attribute, the
    agent's underlying model-generation object. *)
Record Agent : Type := mkAgent {
  agent_name : string;
  _llm : Endpoint
}.

(** Modelled from the spec: the route result type is not among the
    sources.  Each element carries a target (an agent, a plain
    destination identifier, or some other shape, kept as its textual
    representation), a confidence score (kept as it prints) and a
    reasoning string. *)
Inductive RouteTarget : Type :=
  | TargetAgent (agent : Agent)
  | TargetStr (server : string)
  | TargetOther (repr : string).

Record RouterResult : Type := mkRouterResult {
  result : RouteTarget;
  confidence : string;
  reasoning : string
}.

(** The routing workflow held by a [RouterProxy]: [route(message)]. *)
Record LLMRouter : Type := mkLLMRouter {
  router_name : string;
  route : string → World → outcome (list RouterResult) * World
}.

(** ** Journal of calls *)

Inductive Call : Type :=
  | CallGenerateStr (callee : Endpoint) (message : string)
      (kwargs : gmap string Value) (res : outcome string)
  | CallRoute (router : LLMRouter) (message : string)
      (res : outcome (list RouterResult)).

Record State : Type := mkState {
  world : World;
  calls : list Call
}.

(** ** The state and exception monad of the proxy layer *)

Definition M (A : Type) : Type := State → outcome A * State.

Definition ret {A} (a : A) : M A := λ s, (Returned a, s).

Definition raise {A} (e : exn) : M A := λ s, (Raised e, s).

Definition bind {A B} (c : M A) (k : A → M B) : M B :=
  λ s, match c s with
       | (Returned a, s') => k a s'
       | (Raised e, s') => (Raised e, s')
       end.

Notation "x <- c ;; k" := (bind c (λ x, k))
  (at level 100, c at next level, right associativity) : proxy_scope.
Local Open Scope proxy_scope.

(** [await callee.generate_str(message, **kwargs)] *)
Definition call_generate_str (callee : Endpoint) (message : string)
    (kwargs : gmap string Value) : M string :=
  λ s, let '(r, w) := generate_str callee message kwargs (world s) in
       (r, {| world := w;
              calls := calls s ++ [CallGenerateStr callee message kwargs r] |}).

(** [await workflow.route(message)] *)
Definition call_route (router : LLMRouter) (message : string)
    : M (list RouterResult) :=
  λ s, let '(r, w) := route router message (world s) in
       (r, {| world := w; calls := calls s ++ [CallRoute router message r] |}).

(** [d[key]] on a dictionary of proxies. *)
Definition getitem (d : gmap string Endpoint) (key : string) : M Endpoint :=
  match d !! key with
  | Some p => ret p
  | None => raise (KeyError key)
  end.

(** [for x in xs: acc = body(x, acc)], left as soon as a body raises. *)
Fixpoint for_each {X A} (xs : list X) (body : X → A → M A) (acc : A) : M A :=
  match xs with
  | [] => ret acc
  | x :: xs' => acc' <- body x acc ;; for_each xs' body acc'
  end.

(** ** BaseAgentProxy *)

Definition BaseAgentProxy_generate_str (message : string) : M string :=
  raise (NotImplementedError "Subclasses must implement generate_str").

(** ** RouterProxy *)

Record RouterProxy : Type := mkRouterProxy {
  router_proxy_name : string;
  _workflow : LLMRouter
}.

Definition RouterProxy_generate_str (self : RouterProxy) (message : string)
    (kwargs : gmap string Value) : M string :=
  results <- call_route (_workflow self) message ;;
  match results with
  | [] => ret "No appropriate route found for the request."
  | top_result :: _ =>
    match result top_result with
    | TargetAgent agent => call_generate_str (_llm agent) message kwargs
    | TargetStr _ => ret "Tool call requested by router - not yet supported"
    | TargetOther repr =>
      ret ("Routed to: " +:+ repr +:+ " (" +:+ confidence top_result
           +:+ "): " +:+ reasoning top_result)
    end
  end.

(** ** ChainProxy

    [_agent_proxies] is the registry the chain was built with; names are
    resolved in it when a step is reached, not when the chain is built.
    The registry is filled before any call and stays as it is during
    one. *)

Record ChainProxy : Type := mkChainProxy {
  chain_name : string;
  _sequence : list string;
  _agent_proxies : gmap string Endpoint;
  _continue_with_final : bool;
  _cumulative : bool
}.

Definition ChainProxy_generate_str (self : ChainProxy) (message : string)
    (kwargs : gmap string Value) : M string :=
  match _sequence self with
  | [] => ret message
  | first_agent :: rest =>
    first_proxy <- getitem (_agent_proxies self) first_agent ;;
    first_response <- call_generate_str first_proxy message kwargs ;;
    if (length (_sequence self) =? 1)%nat then ret first_response
    else if _cumulative self then
      for_each rest
        (λ agent_name cumulative_response,
           proxy <- getitem (_agent_proxies self) agent_name ;;
           agent_response <- call_generate_str proxy cumulative_response ∅ ;;
           ret (cumulative_response +:+
                (nl +:+ nl +:+ "<" +:+ agent_name +:+ ">" +:+ nl +:+
                 agent_response +:+ nl +:+ "</" +:+ agent_name +:+ ">")))
        ("<" +:+ first_agent +:+ ">" +:+ nl +:+ first_response +:+ nl +:+
         "</" +:+ first_agent +:+ ">")
    else
      for_each rest
        (λ agent_name current_message,
           proxy <- getitem (_agent_proxies self) agent_name ;;
           call_generate_str proxy current_message ∅)
        first_response
  end.

(** ** Reading the journal *)

Definition call_endpoint (c : Call) : option Endpoint :=
  match c with
  | CallGenerateStr callee _ _ _ => Some callee
  | CallRoute _ _ _ => None
  end.

Definition call_message (c : Call) : string :=
  match c with
  | CallGenerateStr _ message _ _ => message
  | CallRoute _ message _ => message
  end.

(** [route] is called with the message alone. *)
Definition call_kwargs (c : Call) : gmap string Value :=
  match c with
  | CallGenerateStr _ _ kwargs _ => kwargs
  | CallRoute _ _ _ => ∅
  end.

Definition call_returned (c : Call) : option string :=
  match c with
  | CallGenerateStr _ _ _ (Returned a) => Some a
  | _ => None
  end.

Definition call_raised (c : Call) : option exn :=
  match c with
  | CallGenerateStr _ _ _ (Raised e) => Some e
  | CallRoute _ _ (Raised e) => Some e
  | _ => None
  end.

(** ** Big-step reading of the chain loops

    Both loops of [ChainProxy.generate_str] resolve a name, call the
    proxy found with the running value and no keyword arguments, and
    compute the next running value with [upd name acc response].
    [loop_run reg upd names acc w cs r w'] : from the running value
    [acc] and the backend state [w], the loop over [names] makes the
    calls [cs], ends with [r] and leaves the backends in [w']. *)
Inductive loop_run (reg : gmap string Endpoint)
    (upd : string → string → string → string)
    : list string → string → World → list Call → outcome string → World → Prop :=
  | loop_done acc w :
      loop_run reg upd [] acc w [] (Returned acc) w
  | loop_missing name names acc w :
      reg !! name = None →
      loop_run reg upd (name :: names) acc w [] (Raised (KeyError name)) w
  | loop_raised name names acc w p e w' :
      reg !! name = Some p →
      generate_str p acc ∅ w = (Raised e, w') →
      loop_run reg upd (name :: names) acc w
        [CallGenerateStr p acc ∅ (Raised e)] (Raised e) w'
  | loop_step name names acc w p a w' cs r w'' :
      reg !! name = Some p →
      generate_str p acc ∅ w = (Returned a, w') →
      loop_run reg upd names (upd name acc a) w' cs r w'' →
      loop_run reg upd (name :: names) acc w
        (CallGenerateStr p acc ∅ (Returned a) :: cs) r w''.

(** The running value after a step, in each mode. *)
Definition sequential_upd (agent_name current_message agent_response : string)
    : string := agent_response.

Definition cumulative_upd (agent_name cumulative_response agent_response : string)
    : string :=
  cumulative_response +:+
  (nl +:+ nl +:+ "<" +:+ agent_name +:+ ">" +:+ nl +:+
   agent_response +:+ nl +:+ "</" +:+ agent_name +:+ ">").

Definition chain_upd (cumulative : bool) : string → string → string → string :=
  if cumulative then cumulative_upd else sequential_upd.

(** The running value the loop starts from, in each mode. *)
Definition chain_seed (cumulative : bool) (first_agent first_response : string)
    : string :=
  if cumulative then
    "<" +:+ first_agent +:+ ">" +:+ nl +:+ first_response +:+ nl +:+
    "</" +:+ first_agent +:+ ">"
  else first_response.

(** [chain_run self message kwargs w cs r w'] : the five ways a call of
    [ChainProxy.generate_str] goes. *)
Inductive chain_run (self : ChainProxy) (message : string)
    (kwargs : gmap string Value) (w : World)
    : list Call → outcome string → World → Prop :=
  | chain_empty :
      _sequence self = [] →
      chain_run self message kwargs w [] (Returned message) w
  | chain_first_missing first_agent rest :
      _sequence self = first_agent :: rest →
      _agent_proxies self !! first_agent = None →
      chain_run self message kwargs w [] (Raised (KeyError first_agent)) w
  | chain_first_raised first_agent rest p e w' :
      _sequence self = first_agent :: rest →
      _agent_proxies self !! first_agent = Some p →
      generate_str p message kwargs w = (Raised e, w') →
      chain_run self message kwargs w
        [CallGenerateStr p message kwargs (Raised e)] (Raised e) w'
  | chain_single first_agent p a w' :
      _sequence self = [first_agent] →
      _agent_proxies self !! first_agent = Some p →
      generate_str p message kwargs w = (Returned a, w') →
      chain_run self message kwargs w
        [CallGenerateStr p message kwargs (Returned a)] (Returned a) w'
  | chain_loop first_agent rest p a w' cs r w'' :
      _sequence self = first_agent :: rest →
      rest ≠ [] →
      _agent_proxies self !! first_agent = Some p →
      generate_str p message kwargs w = (Returned a, w') →
      loop_run (_agent_proxies self) (chain_upd (_cumulative self)) rest
        (chain_seed (_cumulative self) first_agent a) w' cs r w'' →
      chain_run self message kwargs w
        (CallGenerateStr p message kwargs (Returned a) :: cs) r w''.

End Proxies.

Arguments Endpoint : clear implicits.
Arguments Agent : clear implicits.
Arguments RouteTarget : clear implicits.
Arguments RouterResult : clear implicits.
Arguments LLMRouter : clear implicits.
Arguments Call : clear implicits.
Arguments State : clear implicits.
Arguments M : clear implicits.
Arguments RouterProxy : clear implicits.
Arguments ChainProxy : clear implicits.

Notation "x <- c ;; k" := (bind c (λ x, k))
  (at level 100, c at next level, right associativity) : proxy_scope.

(** * The other proxies of [proxies.py] *)

Section Adapters.

Context {World Value : Type}.
Local Open Scope proxy_scope.

(** Modelled from the spec: [mcp_agent.app.MCPApp] is not among the
    sources.  The proxies use two of its operations, the generic
    [send(name, message)] and the interactive [prompt(name,
    default_prompt)]; both act on the backends and may raise. *)
Record MCPApp : Type := mkMCPApp {
  app_send : string → string → World → outcome string * World;
  app_prompt : string → string → World → outcome string * World
}.

(** A call on the host application.  The journal keeps the calls of
    [generate_str] and [route] only; it is left as it is. *)
Definition call_app {A} (f : World → outcome A * World)
    : M World Value A :=
  λ s, let '(r, w) := f (world s) in
       (r, {| world := w; calls := calls s |}).

(** A proxy object: the two attributes of [BaseAgentProxy.__init__] and
    the [generate_str] of its class, to which [send] dispatches. *)
Record Proxy : Type := mkProxy {
  _app : MCPApp;
  proxy_name : string;
  proxy_generate_str : string → gmap string Value → M World Value string
}.

(** ** BaseAgentProxy *)

Definition BaseAgentProxy_prompt (self : Proxy) (default_prompt : string)
    : M World Value string :=
  call_app (app_prompt (_app self) (proxy_name self) default_prompt).

(** [message: Optional[str] = None]; [generate_str] is called with the
    message alone. *)
Definition BaseAgentProxy_send (self : Proxy) (message : option string)
    : M World Value string :=
  match message with
  | None => BaseAgentProxy_prompt self ""
  | Some message => proxy_generate_str self message ∅
  end.

Definition BaseAgentProxy_call (self : Proxy) (message : option string)
    : M World Value string :=
  BaseAgentProxy_send self message.

(** ** AgentProxy, LLMAgentProxy, WorkflowProxy *)

Definition AgentProxy_generate_str (app : MCPApp) (name : string)
    (message : string) (kwargs : gmap string Value) : M World Value string :=
  call_app (app_send app name message).

Definition LLMAgentProxy_generate_str (agent : Agent World Value)
    (message : string) (kwargs : gmap string Value) : M World Value string :=
  call_generate_str (_llm agent) message kwargs.

(** The workflow is any object with [generate_str(message, **kwargs)]. *)
Definition WorkflowProxy_generate_str (workflow : Endpoint World Value)
    (message : string) (kwargs : gmap string Value) : M World Value string :=
  call_generate_str workflow message kwargs.

Definition AgentProxy (app : MCPApp) (name : string) : Proxy :=
  {| _app := app; proxy_name := name;
     proxy_generate_str := AgentProxy_generate_str app name |}.

Definition LLMAgentProxy (app : MCPApp) (name : string)
    (agent : Agent World Value) : Proxy :=
  {| _app := app; proxy_name := name;
     proxy_generate_str := LLMAgentProxy_generate_str agent |}.

Definition WorkflowProxy (app : MCPApp) (name : string)
    (workflow : Endpoint World Value) : Proxy :=
  {| _app := app; proxy_name := name;
     proxy_generate_str := WorkflowProxy_generate_str workflow |}.

(** [RouterProxy] and [ChainProxy] as proxy objects. *)
Definition RouterProxy_proxy (app : MCPApp) (self : RouterProxy World Value)
    : Proxy :=
  {| _app := app; proxy_name := router_proxy_name self;
     proxy_generate_str := RouterProxy_generate_str self |}.

Definition ChainProxy_proxy (app : MCPApp) (self : ChainProxy World Value)
    : Proxy :=
  {| _app := app; proxy_name := chain_name self;
     proxy_generate_str := ChainProxy_generate_str self |}.

(** A proxy as an entry of a registry: what a chain that calls its
    [generate_str] sees of it, the answer or exception and the change
    of the backends. *)
Definition registered (p : Proxy) : Endpoint World Value :=
  {| _name := proxy_name p;
     generate_str := λ message kwargs w,
       let '(r, s) := proxy_generate_str p message kwargs
                        {| world := w; calls := [] |} in
       (r, world s) |}.

(** ** The cumulative transcript in closed form *)

Definition tagged (agent_name agent_response : string) : string :=
  "<" +:+ agent_name +:+ ">" +:+ nl +:+ agent_response +:+ nl +:+
  "</" +:+ agent_name +:+ ">".

(** The tagged blocks of the steps, two line feeds between them. *)
Fixpoint transcript (steps : list (string * string)) : string :=
  match steps with
  | [] => ""
  | (agent_name, agent_response) :: later =>
    match later with
    | [] => tagged agent_name agent_response
    | _ :: _ => tagged agent_name agent_response +:+ nl +:+ nl +:+ transcript later
    end
  end.

End Adapters.

Arguments MCPApp : clear implicits.
Arguments Proxy : clear implicits.

(** * Steps that answer

    To say what a chain does when its steps resolve and return, the
    steps are listed with what each returns.  These are conditions on
    the registry and on the backends; the chain does not appear in
    them. *)

Section Answers.

Context {World Value : Type}.

(** One step that answers: its name in the sequence, the proxy
    registered under that name, what the proxy returns and the state
    in which it leaves the backends. *)
Record StepAnswer : Type := mkStepAnswer {
  step_name : string;
  step_proxy : Endpoint World Value;
  step_answer : string;
  step_world : World
}.

(** From the running value [acc] and the backends in [w]: every step of
    [steps] is registered under its name and, called with the running
    value and no keyword argument, returns its answer and leaves its
    state; the running value of the next step is [upd name acc answer]. *)
Fixpoint loop_answers (reg : gmap string (Endpoint World Value))
    (upd : string → string → string → string) (acc : string) (w : World)
    (steps : list StepAnswer) : Prop :=
  match steps with
  | [] => True
  | step :: later =>
    reg !! step_name step = Some (step_proxy step) ∧
    generate_str (step_proxy step) acc ∅ w =
      (Returned (step_answer step), step_world step) ∧
    loop_answers reg upd (upd (step_name step) acc (step_answer step))
      (step_world step) later
  end.

(** The calls of those steps, as the journal shows them. *)
Fixpoint loop_calls (upd : string → string → string → string) (acc : string)
    (steps : list StepAnswer) : list (Call World Value) :=
  match steps with
  | [] => []
  | step :: later =>
    CallGenerateStr (step_proxy step) acc ∅ (Returned (step_answer step)) ::
    loop_calls upd (upd (step_name step) acc (step_answer step)) later
  end.

(** The running value after those steps. *)
Fixpoint loop_value (upd : string → string → string → string) (acc : string)
    (steps : list StepAnswer) : string :=
  match steps with
  | [] => acc
  | step :: later =>
    loop_value upd (upd (step_name step) acc (step_answer step)) later
  end.

(** The state of the backends after those steps. *)
Fixpoint loop_world (w : World) (steps : list StepAnswer) : World :=
  match steps with
  | [] => w
  | step :: later => loop_world (step_world step) later
  end.

End Answers.

Arguments StepAnswer : clear implicits.

(** * The prompt server: [prompt_server.py]

    The functions of the server that decide how a resource is typed and
    embedded and how prompts are named.  Paths are kept as the strings
    they print to; what [pathlib], [str] and [base64] compute is taken
    from a record, the state of the disk from another. *)

Module PromptServer.

Inductive error : Type :=
  | FileNotFoundError (msg : string)
  | ReadError (detail : string)
  | ValidationError (input : string).

Inductive result (A : Type) : Type :=
  | Ok (a : A)
  | Err (e : error).
Arguments Ok {A} a.
Arguments Err {A} e.

(** [Path(p).suffix], [s.lower()], [Path(p).name],
    [prompt_file.parent / resource_path], [base64.b64encode], and the
    validation of a [uri] field by pydantic: the URL as it is kept, or
    nothing when the string is rejected and the constructor raises. *)
Record Library : Type := mkLibrary {
  path_suffix : string → string;
  str_lower : string → string;
  path_name : string → string;
  parent_join : string → string → string;
  b64encode : list Byte.byte → string;
  any_url : string → option string
}.

(** What is on the disk: [path.exists()], [open(path, "r",
    encoding="utf-8").read()] and [open(path, "rb").read()]. *)
Record FileSystem : Type := mkFileSystem {
  path_exists : string → bool;
  read_text : string → result string;
  read_bytes : string → result (list Byte.byte)
}.

(** [s.startswith(prefix)] *)
Definition startswith (s prefix : string) : bool := String.prefix prefix s.

Definition MIME_TYPES : gmap string string :=
  list_to_map
    [ (".txt", "text/plain");
      (".md", "text/markdown");
      (".json", "application/json");
      (".py", "text/x-python");
      (".js", "text/javascript");
      (".html", "text/html");
      (".css", "text/css");
      (".csv", "text/csv");
      (".jpg", "image/jpeg");
      (".jpeg", "image/jpeg");
      (".png", "image/png");
      (".gif", "image/gif");
      (".svg", "image/svg+xml");
      (".webp", "image/webp");
      (".bmp", "image/bmp");
      (".tiff", "image/tiff");
      (".tif", "image/tiff");
      (".ico", "image/x-icon");
      (".pdf", "application/pdf") ].

Definition guess_mime_type (lib : Library) (file_path : string) : string :=
  let extension := str_lower lib (path_suffix lib file_path) in
  default "application/octet-stream" (MIME_TYPES !! extension).

Definition is_image_mime_type (mime_type : string) : bool :=
  startswith mime_type "image/" && bool_decide (mime_type ≠ "image/svg+xml").

Definition is_binary_content (mime_type : string) : bool :=
  is_image_mime_type mime_type || negb (startswith mime_type "text/").

Fixpoint find_resource_file (lib : Library) (fs : FileSystem)
    (resource_path : string) (prompt_files : list string) : option string :=
  match prompt_files with
  | [] => None
  | prompt_file :: prompt_files' =>
    let potential_path := parent_join lib prompt_file resource_path in
    if path_exists fs potential_path then Some potential_path
    else find_resource_file lib fs resource_path prompt_files'
  end.

(** [(content, mime_type, is_binary)] *)
Definition ResourceContent : Type := string * string * bool.

Definition load_resource_content (lib : Library) (fs : FileSystem)
    (resource_path : string) (prompt_files : list string)
    : result ResourceContent :=
  match find_resource_file lib fs resource_path prompt_files with
  | None => Err (FileNotFoundError ("Resource not found: " +:+ resource_path))
  | Some resource_file =>
    let mime_type := guess_mime_type lib resource_file in
    let is_binary := is_binary_content mime_type in
    if is_binary then
      match read_bytes fs resource_file with
      | Ok bytes => Ok (b64encode lib bytes, mime_type, is_binary)
      | Err e => Err e
      end
    else
      match read_text fs resource_file with
      | Ok content => Ok (content, mime_type, is_binary)
      | Err e => Err e
      end
  end.

(** The message types of the [mcp] package, as far as the server
    builds them.  The [uri] of a resource is what validation made of
    the string given; the other fields are strings kept as given. *)
Inductive ResourceContents : Type :=
  | TextResourceContents (uri mimeType text : string)
  | BlobResourceContents (uri mimeType blob : string).

Inductive Content : Type :=
  | TextContent (text : string)
  | ImageContent (data mimeType : string)
  | EmbeddedResource (resource : ResourceContents).

Inductive Message : Type :=
  | UserMessage (content : Content)
  | AssistantMessage (content : Content).

Definition create_resource_uri (lib : Library) (path : string) : string :=
  "resource://" +:+ path_name lib path.

(** Both constructors validate the [uri] and raise when it is
    rejected. *)
Definition create_embedded_resource (lib : Library) (resource_path content
    mime_type : string) (is_binary : bool) : result Content :=
  let resource_uri_str := create_resource_uri lib resource_path in
  if is_binary then
    match any_url lib resource_uri_str with
    | Some uri => Ok (EmbeddedResource (BlobResourceContents uri mime_type content))
    | None => Err (ValidationError resource_uri_str)
    end
  else
    match any_url lib resource_uri_str with
    | Some uri => Ok (EmbeddedResource (TextResourceContents uri mime_type content))
    | None => Err (ValidationError resource_uri_str)
    end.

Definition create_image_content (data mime_type : string) : Content :=
  ImageContent data mime_type.

Definition create_content_message (text role : string) : Message :=
  let message_class :=
    if bool_decide (role = "user") then UserMessage else AssistantMessage in
  message_class (TextContent text).

Definition create_resource_message (lib : Library) (resource_path content
    mime_type : string) (is_binary : bool) (role : string) : result Message :=
  let message_class :=
    if bool_decide (role = "user") then UserMessage else AssistantMessage in
  if is_image_mime_type mime_type then
    let image_content := create_image_content content mime_type in
    Ok (message_class image_content)
  else
    match create_embedded_resource lib resource_path content mime_type
            is_binary with
    | Ok embedded_resource => Ok (message_class embedded_resource)
    | Err e => Err e
    end.

(** The warning of an invalid role goes to the log. *)
Definition cast_message_role (role : string) : string :=
  if bool_decide (role = "user") || bool_decide (role = "assistant") then role
  else "user".

(** A section of a prompt template, [PromptContent]: the attributes the
    server reads. *)
Record PromptContent : Type := mkPromptContent {
  role : string;
  text : string;
  resources : list string
}.

(** The two nested loops append to [messages]; a resource for which the
    body of the [try] raises, in loading or in building the message, is
    logged by the [except] and skipped. *)
Definition create_messages_with_resources (lib : Library) (fs : FileSystem)
    (content_sections : list PromptContent) (prompt_files : list string)
    : list Message :=
  fold_left
    (λ messages section,
       let role := cast_message_role (role section) in
       let messages := messages ++ [create_content_message (text section) role] in
       fold_left
         (λ messages resource_path,
            match load_resource_content lib fs resource_path prompt_files with
            | Ok (resource_content, mime_type, is_binary) =>
              match create_resource_message lib resource_path
                      resource_content mime_type is_binary role with
              | Ok resource_message => messages ++ [resource_message]
              | Err e => messages
              end
            | Err e => messages
            end)
         (resources section) messages)
    content_sections [].

(** ** Naming a prompt in [register_prompt]

    The part of [register_prompt] between loading the template and
    registering the handler: a name already in [prompt_registry] gets
    the suffixes [_1], [_2], ... until it is free, and the metadata is
    entered under the name found.  The loop is given fuel; the registry
    size is enough, as shown below. *)

Record PromptMetadata : Type := mkPromptMetadata {
  name : string;
  description : string;
  template_variables : list string;
  resource_paths : list string;
  file_path : string
}.

Definition set_name (metadata : PromptMetadata) (prompt_name : string)
    : PromptMetadata :=
  {| name := prompt_name; description := description metadata;
     template_variables := template_variables metadata;
     resource_paths := resource_paths metadata;
     file_path := file_path metadata |}.

(** [while prompt_name in prompt_registry:
       prompt_name = f"{base_name}_{suffix}"; suffix += 1] *)
Fixpoint while_registered (fuel : nat)
    (prompt_registry : gmap string PromptMetadata)
    (base_name prompt_name : string) (suffix : nat) : option string :=
  if bool_decide (is_Some (prompt_registry !! prompt_name)) then
    match fuel with
    | O => None
    | S fuel' =>
      while_registered fuel' prompt_registry base_name
        (base_name +:+ "_" +:+ pretty suffix) (S suffix)
    end
  else Some prompt_name.

Definition unique_prompt_name (prompt_registry : gmap string PromptMetadata)
    (metadata : PromptMetadata) : option string :=
  let prompt_name := name metadata in
  if bool_decide (is_Some (prompt_registry !! prompt_name)) then
    while_registered (size prompt_registry) prompt_registry prompt_name
      prompt_name 1
  else Some prompt_name.

(** [prompt_registry[metadata.name] = metadata], after the renaming. *)
Definition register_metadata (prompt_registry : gmap string PromptMetadata)
    (metadata : PromptMetadata) : option (gmap string PromptMetadata) :=
  match unique_prompt_name prompt_registry metadata with
  | Some prompt_name =>
    Some (<[prompt_name := set_name metadata prompt_name]> prompt_registry)
  | None => None
  end.

(** ** Words for the statements *)

Definition message_content (m : Message) : Content :=
  match m with UserMessage c | AssistantMessage c => c end.

Definition message_role (m : Message) : string :=
  match m with UserMessage _ => "user" | AssistantMessage _ => "assistant" end.

Definition message_text (m : Message) : option string :=
  match message_content m with TextContent t => Some t | _ => None end.

(** [f"{base_name}_{suffix}"] *)
Definition suffixed (base_name : string) (suffix : nat) : string :=
  base_name +:+ "_" +:+ pretty suffix.

(** A resource gives a message when it loads and its message can be
    built. *)
Definition resource_message (lib : Library) (fs : FileSystem)
    (prompt_files : list string) (role resource_path : string)
    : option Message :=
  match load_resource_content lib fs resource_path prompt_files with
  | Ok (resource_content, mime_type, is_binary) =>
    if is_image_mime_type mime_type then
      Some ((if bool_decide (role = "user") then UserMessage
             else AssistantMessage) (ImageContent resource_content mime_type))
    else
      match any_url lib (create_resource_uri lib resource_path) with
      | Some uri =>
        Some ((if bool_decide (role = "user") then UserMessage
               else AssistantMessage)
                (EmbeddedResource
                   (if is_binary
                    then BlobResourceContents uri mime_type resource_content
                    else TextResourceContents uri mime_type resource_content)))
      | None => None
      end
  | Err _ => None
  end.

(** The messages of one section: its text, then the messages of its
    resources that give one. *)
Definition section_messages (lib : Library) (fs : FileSystem)
    (prompt_files : list string) (section : PromptContent) : list Message :=
  create_content_message (text section) (cast_message_role (role section)) ::
  omap (resource_message lib fs prompt_files (cast_message_role (role section)))
       (resources section).

End PromptServer.

(** * A small installation

    Backends that can be run: the backend state counts the calls served,
    keyword arguments carry strings. *)

Module Demo.

Definition answering (name : string) : Endpoint nat string :=
  {| _name := name;
     generate_str := λ message kwargs w,
       (Returned (name +:+ " read " +:+ message), S w) |}.

Definition failing (name : string) : Endpoint nat string :=
  {| _name := name;
     generate_str := λ message kwargs w, (Raised (BackendError name), S w) |}.

Definition registry : gmap string (Endpoint nat string) :=
  {[ "A" := answering "A"; "B" := answering "B"; "C" := answering "C";
     "X" := failing "X" ]}.

Definition options : gmap string string := {[ "max_tokens" := "64" ]}.

Definition start : State nat string := {| world := 0; calls := [] |}.

Definition chain (sequence : list string) (cumulative : bool)
    : ChainProxy nat string :=
  {| chain_name := "chain"; _sequence := sequence;
     _agent_proxies := registry; _continue_with_final := true;
     _cumulative := cumulative |}.

Definition writer : Agent nat string :=
  {| agent_name := "writer"; _llm := answering "writer" |}.

Definition reviewer : Agent nat string :=
  {| agent_name := "reviewer"; _llm := answering "reviewer" |}.

Definition routing (results : list (RouterResult nat string))
    : RouterProxy nat string :=
  {| router_proxy_name := "router";
     _workflow := {| router_name := "llm_router";
                     route := λ message w, (Returned results, S w) |} |}.

Definition to_writer : RouterResult nat string :=
  {| result := TargetAgent writer; confidence := "high";
     reasoning := "asks for a text" |}.

Definition to_reviewer : RouterResult nat string :=
  {| result := TargetAgent reviewer; confidence := "low";
     reasoning := "mentions a review" |}.

Definition to_server : RouterResult nat string :=
  {| result := TargetStr "fetch"; confidence := "high";
     reasoning := "asks for a page" |}.

(** The calls the demonstrations below expect to find in the journal. *)

Definition tagged_A : string :=
  "<A>" +:+ nl +:+ "A read hi" +:+ nl +:+ "</A>".

Definition call_A : Call nat string :=
  CallGenerateStr (answering "A") "hi" options (Returned "A read hi").

Definition call_B_sequential : Call nat string :=
  CallGenerateStr (answering "B") "A read hi" ∅ (Returned "B read A read hi").

Definition call_C_sequential : Call nat string :=
  CallGenerateStr (answering "C") "B read A read hi" ∅
    (Returned "C read B read A read hi").

Definition call_B_cumulative : Call nat string :=
  CallGenerateStr (answering "B") tagged_A ∅ (Returned ("B read " +:+ tagged_A)).

Definition call_X : Call nat string :=
  CallGenerateStr (failing "X") "A read hi" ∅ (Raised (BackendError "X")).

(** The later steps of the sequential chain over A, B, C, with what they
    answer. *)

Definition answer_B_sequential : StepAnswer nat string :=
  {| step_name := "B"; step_proxy := answering "B";
     step_answer := "B read A read hi"; step_world := 2 |}.

Definition answer_C_sequential : StepAnswer nat string :=
  {| step_name := "C"; step_proxy := answering "C";
     step_answer := "C read B read A read hi"; step_world := 3 |}.

(** A host application, a legacy proxy registered over it, and an agent
    whose model fails. *)

Definition host : MCPApp nat :=
  {| app_send := λ name message w,
       (Returned (name +:+ " was sent " +:+ message), S w);
     app_prompt := λ name default_prompt w,
       (Returned ("typed for " +:+ name), S w) |}.

Definition legacy_registry : gmap string (Endpoint nat string) :=
  {[ "L" := registered (AgentProxy host "legacy"); "B" := answering "B" ]}.

Definition legacy_chain : ChainProxy nat string :=
  {| chain_name := "legacy_chain"; _sequence := ["L"; "B"];
     _agent_proxies := legacy_registry; _continue_with_final := true;
     _cumulative := false |}.

Definition broken : Agent nat string :=
  {| agent_name := "broken"; _llm := failing "broken" |}.

Definition to_broken : RouterResult nat string :=
  {| result := TargetAgent broken; confidence := "high";
     reasoning := "only candidate" |}.

Definition call_A_plain : Call nat string :=
  CallGenerateStr (answering "A") "hi" ∅ (Returned "A read hi").

End Demo.

(** * A small prompt directory

    A library whose suffix is what follows the last dot and whose URLs
    may not hold a space, and a disk with four files beside the prompt
    file. *)

Module PromptDemo.

Import PromptServer.

Fixpoint from_last_dot (s : string) : option string :=
  match s with
  | EmptyString => None
  | String c rest =>
    match from_last_dot rest with
    | Some suffix => Some suffix
    | None =>
      if bool_decide (c = Ascii.ascii_of_nat 46) then Some (String c rest)
      else None
    end
  end.

Fixpoint has_space (s : string) : bool :=
  match s with
  | EmptyString => false
  | String c rest => bool_decide (c = Ascii.ascii_of_nat 32) || has_space rest
  end.

Definition lib : Library :=
  {| path_suffix := λ p, default "" (from_last_dot p);
     str_lower := λ s, s;
     path_name := λ p, p;
     parent_join := λ prompt_file resource_path, "/prompts/" +:+ resource_path;
     b64encode := λ bytes, "aGVsbG8=";
     any_url := λ s, if has_space s then None else Some s |}.

Definition fs : FileSystem :=
  {| path_exists := λ p,
       bool_decide (p ∈ ["/prompts/style.css"; "/prompts/logo.png";
                         "/prompts/data.json"; "/prompts/my notes.txt"]);
     read_text := λ p, Ok "body { color: red; }";
     read_bytes := λ p, Ok [] |}.

Definition prompt_files : list string := ["/prompts/review.txt"].

Definition sections : list PromptContent :=
  [ {| role := "user"; text := "Review this";
       resources := ["style.css"; "missing.md"; "my notes.txt"; "logo.png"] |};
    {| role := "narrator"; text := "An aside"; resources := [] |};
    {| role := "assistant"; text := "Looks fine"; resources := ["data.json"] |} ].

Definition review : PromptMetadata :=
  {| name := "review"; description := "Review a stylesheet";
     template_variables := []; resource_paths := ["style.css"];
     file_path := "/prompts/review.txt" |}.

Definition taken : gmap string PromptMetadata :=
  {[ "review" := review; "review_1" := set_name review "review_1" ]}.

End PromptDemo.

(** * Properties *)

Section Theory.

Context {World Value : Type}.
Local Open Scope proxy_scope.

Implicit Types (s : State World Value) (w : World).
Implicit Types (reg : gmap string (Endpoint World Value)).
Implicit Types (kwargs : gmap string Value) (message : string).
Implicit Types (cs : list (Call World Value)).

(** ** The monad *)

Lemma bind_returned {A B} (c : M World Value A) (k : A → M World Value B) s a s' :
  c s = (Returned a, s') → (x <- c ;; k x) s = k a s'.
Proof. intros H. unfold bind. by rewrite H. Qed.

Lemma bind_raised {A B} (c : M World Value A) (k : A → M World Value B) s e s' :
  c s = (Raised e, s') → (x <- c ;; k x) s = (Raised e, s').
Proof. intros H. unfold bind. by rewrite H. Qed.

Lemma bind_ret_r {A} (c : M World Value A) s : (x <- c ;; ret x) s = c s.
Proof. unfold bind, ret. by destruct (c s) as [[a|e] s']. Qed.

Lemma bind_assoc {A B C} (c : M World Value A) (k : A → M World Value B)
    (h : B → M World Value C) s :
  (y <- (x <- c ;; k x) ;; h y) s = (x <- c ;; y <- k x ;; h y) s.
Proof. unfold bind. by destruct (c s) as [[a|e] s']. Qed.

Lemma bind_ext {A B} (c : M World Value A) (k k' : A → M World Value B) s :
  (∀ a s', k a s' = k' a s') → (x <- c ;; k x) s = (x <- c ;; k' x) s.
Proof. intros H. unfold bind. destruct (c s) as [[a|e] s']; auto. Qed.

Lemma getitem_Some reg key p s : reg !! key = Some p → getitem reg key s = (Returned p, s).
Proof. intros H. unfold getitem. by rewrite H. Qed.

Lemma getitem_None reg key s :
  reg !! key = None → getitem reg key s = (Raised (KeyError key), s).
Proof. intros H. unfold getitem. by rewrite H. Qed.

Lemma call_generate_str_run (p : Endpoint World Value) message kwargs s r w' :
  generate_str p message kwargs (world s) = (r, w') →
  call_generate_str p message kwargs s =
  (r, {| world := w'; calls := calls s ++ [CallGenerateStr p message kwargs r] |}).
Proof. intros H. unfold call_generate_str. by rewrite H. Qed.

Lemma string_app_assoc (x y z : string) : (x +:+ y) +:+ z = x +:+ y +:+ z.
Proof.
  induction x as [|c x IH]; [done|].
  change (String c ((x +:+ y) +:+ z) = String c (x +:+ y +:+ z)).
  by rewrite IH.
Qed.

(** ** Loops *)

Lemma for_each_ext {X A} (xs : list X) (body body' : X → A → M World Value A) acc s :
  (∀ x a s', body x a s' = body' x a s') →
  for_each xs body acc s = for_each xs body' acc s.
Proof.
  intros Hb. revert acc s. induction xs as [|x xs IH]; intros acc s; simpl; [done|].
  unfold bind. rewrite Hb. destruct (body' x acc s) as [[a|e] s']; auto.
Qed.

Lemma for_each_app {X A} (xs ys : list X) (body : X → A → M World Value A) acc s :
  for_each (xs ++ ys) body acc s =
  (acc' <- for_each xs body acc ;; for_each ys body acc') s.
Proof.
  revert acc s. induction xs as [|x xs IH]; intros acc s; simpl; [done|].
  rewrite bind_assoc. apply bind_ext. intros a s'. apply IH.
Qed.

(** ** The functions refine their big-step reading *)

Lemma for_each_loop_run reg upd (body : string → string → M World Value string)
    names acc s r s' :
  (∀ name a s0, body name a s0 =
     (proxy <- getitem reg name ;;
      resp <- call_generate_str proxy a ∅ ;;
      ret (upd name a resp)) s0) →
  for_each names body acc s = (r, s') →
  ∃ cs, calls s' = calls s ++ cs ∧
        loop_run reg upd names acc (world s) cs r (world s').
Proof.
  intros Hbody. revert acc s.
  induction names as [|name names IH]; intros acc s; simpl.
  - intros [= <- <-]. exists []. rewrite app_nil_r. split; [done|constructor].
  - unfold bind at 1. rewrite Hbody. unfold bind, getitem.
    destruct (reg !! name) as [p|] eqn:Hp; unfold ret, raise.
    + unfold call_generate_str.
      destruct (generate_str p acc ∅ (world s)) as [[a|e] w1] eqn:Hg.
      * intros Hrun. apply IH in Hrun as (cs & Hcs & Hloop). simpl in *.
        exists (CallGenerateStr p acc ∅ (Returned a) :: cs). split.
        { by rewrite Hcs, <- app_assoc. }
        by eapply loop_step.
      * intros [= <- <-]. simpl.
        exists [CallGenerateStr p acc ∅ (Raised e)]. split; [done|].
        by eapply loop_raised.
    + intros [= <- <-]. exists []. rewrite app_nil_r. split; [done|].
      by constructor.
Qed.

Lemma chain_generate_str_run (self : ChainProxy World Value) message kwargs s r s' :
  ChainProxy_generate_str self message kwargs s = (r, s') →
  ∃ cs, calls s' = calls s ++ cs ∧
        chain_run self message kwargs (world s) cs r (world s').
Proof.
  unfold ChainProxy_generate_str.
  destruct (_sequence self) as [|first_agent rest] eqn:Hseq.
  { intros [= <- <-]. exists []. rewrite app_nil_r. split; [done|].
    by constructor. }
  destruct (_agent_proxies self !! first_agent) as [p|] eqn:Hp.
  2:{ erewrite bind_raised by by apply getitem_None.
      intros [= <- <-]. exists []. rewrite app_nil_r. split; [done|].
      by eapply chain_first_missing. }
  erewrite bind_returned by by apply getitem_Some.
  destruct (generate_str p message kwargs (world s)) as [[a|e] w1] eqn:Hg.
  2:{ erewrite bind_raised by by apply call_generate_str_run.
      intros [= <- <-]. simpl.
      exists [CallGenerateStr p message kwargs (Raised e)]. split; [done|].
      by eapply chain_first_raised. }
  erewrite bind_returned by by apply call_generate_str_run.
  destruct rest as [|second rest]; simpl length; simpl Nat.eqb; cbv iota.
  { intros [= <- <-]. simpl.
    exists [CallGenerateStr p message kwargs (Returned a)]. split; [done|].
    by eapply chain_single. }
  intros Hrun.
  assert (∃ cs, calls s' =
            (calls s ++ [CallGenerateStr p message kwargs (Returned a)]) ++ cs ∧
     loop_run (_agent_proxies self) (chain_upd (_cumulative self)) (second :: rest)
       (chain_seed (_cumulative self) first_agent a) w1 cs r (world s'))
    as (cs & Hcs & Hloop).
  { destruct (_cumulative self); simpl chain_upd; simpl chain_seed.
    - eapply for_each_loop_run in Hrun; [exact Hrun|]. done.
    - eapply for_each_loop_run in Hrun; [exact Hrun|].
      intros name a0 s0. unfold sequential_upd. symmetry.
      apply bind_ext. intros proxy s1. apply bind_ret_r. }
  exists (CallGenerateStr p message kwargs (Returned a) :: cs). split.
  { by rewrite Hcs, <- app_assoc. }
  by eapply chain_loop.
Qed.

(** ** What the journal of a loop looks like *)

Lemma loop_run_kwargs reg upd names acc w cs r w' i c :
  loop_run reg upd names acc w cs r w' →
  cs !! i = Some c → call_kwargs c = ∅.
Proof.
  intros Hrun. revert i.
  induction Hrun; intros [|i] Hi; simplify_eq/=; eauto.
Qed.

Lemma loop_run_callees reg upd names acc w cs r w' i c :
  loop_run reg upd names acc w cs r w' →
  cs !! i = Some c →
  ∃ name p, names !! i = Some name ∧ reg !! name = Some p ∧
            call_endpoint c = Some p.
Proof.
  intros Hrun. revert i.
  induction Hrun; intros [|i] Hi; simplify_eq/=; eauto.
Qed.

Lemma loop_run_raised reg upd names acc w cs r w' i c e :
  loop_run reg upd names acc w cs r w' →
  cs !! i = Some c → call_raised c = Some e →
  r = Raised e ∧ length cs = S i.
Proof.
  intros Hrun. revert i.
  induction Hrun; intros [|i] Hi Hc; simplify_eq/=; eauto.
  destruct (IHHrun i Hi Hc) as [-> ->]. done.
Qed.

Lemma loop_run_head reg upd names acc w cs r w' c :
  loop_run reg upd names acc w cs r w' →
  cs !! 0 = Some c → call_message c = acc.
Proof. destruct 1; intros; simplify_eq/=; done. Qed.

Lemma loop_run_returned_length reg upd names acc w cs r w' out :
  loop_run reg upd names acc w cs r w' →
  r = Returned out → length cs = length names.
Proof. induction 1; intros; simplify_eq/=; eauto. Qed.

(** In sequential mode each call carries the answer of the one before. *)
Lemma loop_run_sequential_link reg names acc w cs r w' i c1 c2 :
  loop_run reg sequential_upd names acc w cs r w' →
  cs !! i = Some c1 → cs !! S i = Some c2 →
  ∃ a, call_returned c1 = Some a ∧ call_message c2 = a.
Proof.
  intros Hrun. revert i.
  induction Hrun; intros [|i] H1 H2; simplify_eq/=; eauto.
  exists a. split; [done|]. by eapply loop_run_head.
Qed.

Lemma loop_run_sequential_result reg names acc w cs r w' out c :
  loop_run reg sequential_upd names acc w cs r w' →
  r = Returned out → last cs = Some c → call_returned c = Some out.
Proof.
  induction 1 as [| | |name names acc w p a w1 cs r w2 Hp Hg Hrun IH];
    intros Hr Hlast; simplify_eq/=.
  destruct cs as [|c' cs]; [|by apply IH].
  inversion Hrun; simplify_eq/=. done.
Qed.

(** ** What the journal of a chain looks like *)

Lemma chain_run_callees (self : ChainProxy World Value) message kwargs w cs r w' i c :
  chain_run self message kwargs w cs r w' →
  cs !! i = Some c →
  ∃ agent_name p, _sequence self !! i = Some agent_name ∧
                  _agent_proxies self !! agent_name = Some p ∧
                  call_endpoint c = Some p.
Proof.
  destruct 1 as [Hseq|? ? Hseq|? ? ? ? ? Hseq|? ? ? ? Hseq
                |? ? ? ? ? ? ? ? Hseq ? ? ? Hloop];
    intros Hi; rewrite Hseq; destruct i as [|i]; simplify_eq/=; eauto.
  by eapply loop_run_callees.
Qed.

Lemma chain_run_raised (self : ChainProxy World Value) message kwargs w cs r w' i c e :
  chain_run self message kwargs w cs r w' →
  cs !! i = Some c → call_raised c = Some e →
  r = Raised e ∧ length cs = S i.
Proof.
  destruct 1 as [| | | |first_agent rest p a w1 cs r w2 Hseq Hrest Hp Hg Hloop];
    intros Hi Hc; try (destruct i; simplify_eq/=; by eauto).
  destruct i as [|i]; simplify_eq/=.
  destruct (loop_run_raised _ _ _ _ _ _ _ _ _ _ _ Hloop Hi Hc) as [-> ->]. done.
Qed.

Lemma chain_run_returned_length (self : ChainProxy World Value) message kwargs
    w cs out w' :
  chain_run self message kwargs w cs (Returned out) w' →
  length cs = length (_sequence self).
Proof.
  intros Hrun. remember (Returned out) as r eqn:Hr.
  destruct Hrun as [Hseq|? ? Hseq|? ? ? ? ? Hseq|? ? ? ? Hseq
                   |? ? ? ? ? ? ? ? Hseq ? ? ? Hloop];
    simplify_eq/=; rewrite Hseq; simpl; try done.
  f_equal. by eapply loop_run_returned_length.
Qed.

Lemma chain_run_first (self : ChainProxy World Value) message kwargs w cs r w'
    first_agent p :
  chain_run self message kwargs w cs r w' →
  _sequence self !! 0 = Some first_agent →
  _agent_proxies self !! first_agent = Some p →
  ∃ res, cs !! 0 = Some (CallGenerateStr p message kwargs res).
Proof.
  destruct 1 as [Hseq|? ? Hseq|? ? ? ? ? Hseq|? ? ? ? Hseq|? ? ? ? ? ? ? ? Hseq];
    rewrite Hseq; intros; simplify_eq/=; eauto.
Qed.

Lemma chain_run_later_kwargs (self : ChainProxy World Value) message kwargs
    w cs r w' i c :
  chain_run self message kwargs w cs r w' →
  cs !! S i = Some c → call_kwargs c = ∅.
Proof.
  destruct 1; intros; simplify_eq/=. by eapply loop_run_kwargs.
Qed.

(** ** Chains whose steps answer *)

Lemma for_each_answers reg upd (body : string → string → M World Value string)
    (steps : list (StepAnswer World Value)) acc s :
  (∀ name a s0, body name a s0 =
     (proxy <- getitem reg name ;;
      resp <- call_generate_str proxy a ∅ ;;
      ret (upd name a resp)) s0) →
  loop_answers reg upd acc (world s) steps →
  for_each (step_name <$> steps) body acc s =
  (Returned (loop_value upd acc steps),
   {| world := loop_world (world s) steps;
      calls := calls s ++ loop_calls upd acc steps |}).
Proof.
  intros Hbody. revert acc s.
  induction steps as [|step later IH]; intros acc s.
  { intros _. cbn. rewrite app_nil_r. by destruct s. }
  intros (Hreg & Hcall & Hlater). cbn [fmap list_fmap for_each].
  erewrite bind_returned; cycle 1.
  { rewrite Hbody.
    erewrite bind_returned by by apply getitem_Some.
    erewrite bind_returned by by apply call_generate_str_run.
    reflexivity. }
  rewrite IH by done. cbn. by rewrite <- app_assoc.
Qed.

Lemma for_each_answers_missing reg upd
    (body : string → string → M World Value string)
    (steps : list (StepAnswer World Value)) x after acc s :
  (∀ name a s0, body name a s0 =
     (proxy <- getitem reg name ;;
      resp <- call_generate_str proxy a ∅ ;;
      ret (upd name a resp)) s0) →
  reg !! x = None →
  loop_answers reg upd acc (world s) steps →
  for_each ((step_name <$> steps) ++ x :: after) body acc s =
  (Raised (KeyError x),
   {| world := loop_world (world s) steps;
      calls := calls s ++ loop_calls upd acc steps |}).
Proof.
  intros Hbody Hx Hsteps. rewrite for_each_app.
  erewrite bind_returned by by eapply for_each_answers.
  cbn [for_each]. erewrite bind_raised; [reflexivity|].
  rewrite Hbody. by erewrite bind_raised by by apply getitem_None.
Qed.

Lemma sequential_final (later : list (StepAnswer World Value)) acc w :
  later ≠ [] →
  ∃ final, last later = Some final ∧
           loop_value sequential_upd acc later = step_answer final ∧
           loop_world w later = step_world final.
Proof.
  revert acc w. induction later as [|step later IH]; [done|]. intros acc w _.
  destruct later as [|next later]; [by exists step|].
  destruct (IH (step_answer step) (step_world step)) as (final & Hlast & Hv & Hw);
    [done|].
  exists final. split_and!; done.
Qed.

(** After a first step that returns, a chain of two entries or more is
    its loop, started from the seed of its mode. *)
Lemma chain_after_first (self : ChainProxy World Value) first_agent rest
    message kwargs s p a w1 :
  _sequence self = first_agent :: rest →
  rest ≠ [] →
  _agent_proxies self !! first_agent = Some p →
  generate_str p message kwargs (world s) = (Returned a, w1) →
  ∃ body : string → string → M World Value string,
    (∀ name acc s0, body name acc s0 =
       (proxy <- getitem (_agent_proxies self) name ;;
        resp <- call_generate_str proxy acc ∅ ;;
        ret (chain_upd (_cumulative self) name acc resp)) s0) ∧
    ChainProxy_generate_str self message kwargs s =
    for_each rest body (chain_seed (_cumulative self) first_agent a)
      {| world := w1;
         calls := calls s ++ [CallGenerateStr p message kwargs (Returned a)] |}.
Proof.
  intros Hseq Hrest Hp Hg. unfold ChainProxy_generate_str. rewrite Hseq.
  erewrite bind_returned by by apply getitem_Some.
  erewrite bind_returned by by apply call_generate_str_run.
  destruct rest as [|second rest]; [done|]. cbn [length Nat.eqb].
  destruct (_cumulative self); cbn [chain_upd chain_seed].
  - eexists. split; [|reflexivity]. done.
  - eexists. split; [|reflexivity].
    intros name acc s0. unfold sequential_upd. symmetry.
    apply bind_ext. intros proxy s1. apply bind_ret_r.
Qed.

(** ** Router *)

(** C5. When the classification of a message is the empty list,
    [RouterProxy.generate_str] returns the string "No appropriate route
    found for the request." as a normal result, and the only call it
    has made is the classification itself: nothing is delegated. *)
Theorem router_empty_classification (self : RouterProxy World Value)
    message kwargs s w' :
  route (_workflow self) message (world s) = (Returned [], w') →
  RouterProxy_generate_str self message kwargs s =
  (Returned "No appropriate route found for the request.",
   {| world := w';
      calls := calls s ++ [CallRoute (_workflow self) message (Returned [])] |}).
Proof.
  intros Hroute. unfold RouterProxy_generate_str, bind, call_route.
  by rewrite Hroute.
Qed.

(** C6. When the first classification result targets a plain
    destination identifier (a string), [RouterProxy.generate_str]
    returns the string "Tool call requested by router - not yet
    supported"; the journal gains the classification call and no
    generation call. *)
Theorem router_server_target (self : RouterProxy World Value)
    message kwargs s top_result others server w' :
  route (_workflow self) message (world s) = (Returned (top_result :: others), w') →
  result top_result = TargetStr server →
  RouterProxy_generate_str self message kwargs s =
  (Returned "Tool call requested by router - not yet supported",
   {| world := w';
      calls := calls s ++
        [CallRoute (_workflow self) message (Returned (top_result :: others))] |}).
Proof.
  intros Hroute Htop. unfold RouterProxy_generate_str, bind, call_route.
  by rewrite Hroute, Htop.
Qed.

(** C7. When the classification is not empty and its first element
    targets an agent, [RouterProxy.generate_str] makes exactly one
    further call, [agent._llm.generate_str] with the original message
    and all keyword arguments, and its outcome is the outcome of that
    call; the other elements of the classification play no part. *)
Theorem router_agent_target (self : RouterProxy World Value)
    message kwargs s top_result others agent w' :
  route (_workflow self) message (world s) = (Returned (top_result :: others), w') →
  result top_result = TargetAgent agent →
  RouterProxy_generate_str self message kwargs s =
  let '(r, w'') := generate_str (_llm agent) message kwargs w' in
  (r, {| world := w'';
         calls := calls s ++
           [CallRoute (_workflow self) message (Returned (top_result :: others));
            CallGenerateStr (_llm agent) message kwargs r] |}).
Proof.
  intros Hroute Htop. unfold RouterProxy_generate_str, bind, call_route.
  rewrite Hroute, Htop. unfold call_generate_str. simpl.
  destruct (generate_str (_llm agent) message kwargs w') as [r w''].
  by rewrite <- app_assoc.
Qed.

(** ** Chain: the short sequences *)

(** C9. A chain with an empty sequence returns its message unchanged,
    in sequential and in cumulative mode, and leaves the backends and
    the journal as they were: no call is made. *)
Theorem chain_empty_sequence_identity name reg continue_with_final cumulative
    message kwargs s :
  ChainProxy_generate_str
    (mkChainProxy name [] reg continue_with_final cumulative) message kwargs s =
  (Returned message, s).
Proof. reflexivity. Qed.

(** C8. A chain whose sequence has exactly one entry behaves, for every
    message, keyword arguments and state, as the direct call of that
    entry's [generate_str] with the same message and keyword
    arguments. *)
Theorem chain_single_entry_direct (self : ChainProxy World Value) agent_name p :
  _sequence self = [agent_name] →
  _agent_proxies self !! agent_name = Some p →
  ∀ message kwargs s,
    ChainProxy_generate_str self message kwargs s =
    call_generate_str p message kwargs s.
Proof.
  intros Hseq Hp message kwargs s. unfold ChainProxy_generate_str.
  rewrite Hseq. erewrite bind_returned by by apply getitem_Some.
  simpl. apply bind_ret_r.
Qed.

(** ** Chain: order, options and failures *)

(** C3. Whatever the mode, the keyword arguments given to
    [ChainProxy.generate_str] of a non-empty chain go to the call of the
    first step, which also receives the original message; every later
    call in the journal is the call of the step at that position and
    carries no keyword argument. *)
Theorem chain_options_first_step_only (self : ChainProxy World Value)
    message kwargs s r s' :
  _sequence self ≠ [] →
  ChainProxy_generate_str self message kwargs s = (r, s') →
  ∃ cs, calls s' = calls s ++ cs ∧
    (∀ first_agent p,
       _sequence self !! 0 = Some first_agent →
       _agent_proxies self !! first_agent = Some p →
       ∃ res, cs !! 0 = Some (CallGenerateStr p message kwargs res)) ∧
    (∀ i c, cs !! S i = Some c →
       call_kwargs c = ∅ ∧
       ∃ agent_name p, _sequence self !! S i = Some agent_name ∧
                       _agent_proxies self !! agent_name = Some p ∧
                       call_endpoint c = Some p).
Proof.
  intros _ Hgen. apply chain_generate_str_run in Hgen as (cs & Hcs & Hrun).
  exists cs. split_and!; [done| |].
  - intros first_agent p. by eapply chain_run_first.
  - intros i c Hi. split.
    + by eapply chain_run_later_kwargs.
    + by eapply chain_run_callees.
Qed.

(** C4. If the call of some step raises, in either mode, then
    [ChainProxy.generate_str] raises that very exception instead of
    returning, and the failed call is the last one of the journal: the
    steps after it in the sequence are not called. *)
Theorem chain_failure_propagates (self : ChainProxy World Value)
    message kwargs s r s' cs i c e :
  ChainProxy_generate_str self message kwargs s = (r, s') →
  calls s' = calls s ++ cs →
  cs !! i = Some c →
  call_raised c = Some e →
  r = Raised e ∧ length cs = S i ∧
  ∃ agent_name p, _sequence self !! i = Some agent_name ∧
                  _agent_proxies self !! agent_name = Some p ∧
                  call_endpoint c = Some p.
Proof.
  intros Hgen Hcalls Hi Hc.
  apply chain_generate_str_run in Hgen as (cs' & Hcs' & Hrun).
  assert (cs' = cs) as -> by (eapply app_inv_head; by rewrite <- Hcs').
  destruct (chain_run_raised _ _ _ _ _ _ _ _ _ _ Hrun Hi Hc) as [-> ->].
  split_and!; [done..|]. by eapply chain_run_callees.
Qed.

(** C2. In sequential mode, for a chain of at least two entries.
    Whatever happens, the calls of the journal are the calls of the
    steps in the order of the sequence, each call after the first has
    for message exactly what the call before it returned, and a chain
    that returns has called every step and returns what the last step
    returned.  And when the first step returns on the message and the
    keyword arguments, and every later step is registered and returns
    on what the step before it returned, the chain does call every
    step so, each later one with the answer of the step before and no
    keyword argument, and returns the answer of the last step. *)
Theorem chain_sequential_pipeline (self : ChainProxy World Value)
    message kwargs s :
  _cumulative self = false →
  2 ≤ length (_sequence self) →
  (∀ r s',
     ChainProxy_generate_str self message kwargs s = (r, s') →
     ∃ cs, calls s' = calls s ++ cs ∧
       (∀ i c, cs !! i = Some c →
          ∃ agent_name p, _sequence self !! i = Some agent_name ∧
                          _agent_proxies self !! agent_name = Some p ∧
                          call_endpoint c = Some p) ∧
       (∀ i c1 c2, cs !! i = Some c1 → cs !! S i = Some c2 →
          ∃ a, call_returned c1 = Some a ∧ call_message c2 = a) ∧
       (∀ out, r = Returned out →
          length cs = length (_sequence self) ∧
          ∃ c, last cs = Some c ∧ call_returned c = Some out)) ∧
  (∀ first_agent p first_response w1 (later : list (StepAnswer World Value)),
     _sequence self = first_agent :: (step_name <$> later) →
     _agent_proxies self !! first_agent = Some p →
     generate_str p message kwargs (world s) = (Returned first_response, w1) →
     loop_answers (_agent_proxies self) sequential_upd first_response w1 later →
     ∃ final,
       last later = Some final ∧
       ChainProxy_generate_str self message kwargs s =
       (Returned (step_answer final),
        {| world := step_world final;
           calls := calls s ++
             CallGenerateStr p message kwargs (Returned first_response) ::
             loop_calls sequential_upd first_response later |})).
Proof.
  intros Hmode Hlen. split.
  - intros r s' Hgen.
    apply chain_generate_str_run in Hgen as (cs & Hcs & Hrun).
    exists cs. split_and!; [done| | |].
    + intros i c. by eapply chain_run_callees.
    + intros i c1 c2.
      destruct Hrun as [| | | |first_agent rest p a w1 cs r w2 Hseq Hrest Hp Hg Hloop];
        intros Hc1 Hc2; simplify_eq/=.
      rewrite Hmode in Hloop. simpl in Hloop.
      destruct i as [|i]; simplify_eq/=.
      * exists a. split; [done|]. by eapply loop_run_head.
      * by eapply loop_run_sequential_link.
    + intros out Hr. split; [subst r; by eapply chain_run_returned_length|].
      revert Hr.
      destruct Hrun as [Hseq|? ? Hseq|? ? ? ? ? Hseq|? ? ? ? Hseq
                       |first_agent rest p a w1 cs r w2 Hseq Hrest Hp Hg Hloop];
        intros Hr; simplify_eq/=;
        try (rewrite Hseq in Hlen; simpl in Hlen; lia).
      rewrite Hmode in Hloop. simpl in Hloop.
      destruct cs as [|c cs].
      { inversion Hloop; simplify_eq/=. }
      destruct (last (c :: cs)) as [c'|] eqn:Hlast.
      2:{ by apply last_None in Hlast. }
      change (last (_ :: c :: cs)) with (last (c :: cs)). rewrite Hlast.
      exists c'. split; [done|]. by eapply loop_run_sequential_result.
  - intros first_agent p first_response w1 later Hseq Hp Hg Hlater.
    assert (later ≠ []) as Hne.
    { intros ->. rewrite Hseq in Hlen. simpl in Hlen. lia. }
    destruct (chain_after_first self first_agent (step_name <$> later)
                message kwargs s p first_response w1) as (body & Hbody & ->);
      try done.
    { by destruct later. }
    rewrite Hmode in Hbody. cbn [chain_upd] in Hbody.
    rewrite Hmode. cbn [chain_seed].
    rewrite (for_each_answers _ sequential_upd) by done.
    cbn [world calls]. rewrite <- app_assoc. cbn [app].
    destruct (sequential_final later first_response w1 Hne)
      as (final & Hlast & -> & ->).
    by exists final.
Qed.

(** ** Chain: the cumulative transcript *)

(** C1. In cumulative mode, for the sequence [A, B] and any message:
    A is called with the message, then B is called with exactly
    "<A>\n" + A's output + "\n</A>", and the value returned is
    "<A>\n" + A's output + "\n</A>\n\n<B>\n" + B's output + "\n</B>".
    In general, a chain of at least two steps extended by one more step
    [x] runs the shorter chain, calls [x] with the whole transcript the
    shorter chain returns and with no keyword argument, and returns that
    transcript followed by the tagged block of [x]. *)
Theorem chain_cumulative_transcript name reg continue_with_final :
  (∀ A B pA pB message kwargs s a w1 b w2,
     reg !! A = Some pA →
     reg !! B = Some pB →
     generate_str pA message kwargs (world s) = (Returned a, w1) →
     generate_str pB ("<" +:+ A +:+ ">" +:+ nl +:+ a +:+ nl +:+ "</" +:+ A +:+ ">")
       ∅ w1 = (Returned b, w2) →
     ChainProxy_generate_str
       (mkChainProxy name [A; B] reg continue_with_final true) message kwargs s =
     (Returned ("<" +:+ A +:+ ">" +:+ nl +:+ a +:+ nl +:+ "</" +:+ A +:+ ">" +:+
                nl +:+ nl +:+
                "<" +:+ B +:+ ">" +:+ nl +:+ b +:+ nl +:+ "</" +:+ B +:+ ">"),
      {| world := w2;
         calls := calls s ++
           [CallGenerateStr pA message kwargs (Returned a);
            CallGenerateStr pB
              ("<" +:+ A +:+ ">" +:+ nl +:+ a +:+ nl +:+ "</" +:+ A +:+ ">")
              ∅ (Returned b)] |})) ∧
  (∀ names x message kwargs s,
     2 ≤ length names →
     ChainProxy_generate_str
       (mkChainProxy name (names ++ [x]) reg continue_with_final true)
       message kwargs s =
     (transcript <- ChainProxy_generate_str
                      (mkChainProxy name names reg continue_with_final true)
                      message kwargs ;;
      proxy <- getitem reg x ;;
      agent_response <- call_generate_str proxy transcript ∅ ;;
      ret (transcript +:+ nl +:+ nl +:+ "<" +:+ x +:+ ">" +:+ nl +:+
           agent_response +:+ nl +:+ "</" +:+ x +:+ ">")) s).
Proof.
  split.
  - intros A B pA pB message kwargs s a w1 b w2 HA HB Ha Hb.
    unfold ChainProxy_generate_str. cbn [_sequence _agent_proxies _cumulative].
    erewrite bind_returned by by apply getitem_Some.
    erewrite bind_returned by by apply call_generate_str_run.
    cbn [length Nat.eqb for_each]. rewrite bind_ret_r.
    erewrite bind_returned by by apply getitem_Some.
    erewrite bind_returned by by apply call_generate_str_run.
    unfold ret. cbn [world calls]. rewrite <- !app_assoc.
    by rewrite !string_app_assoc.
  - intros names x message kwargs s Hlen.
    destruct names as [|first_agent [|second rest]]; simpl in Hlen; [lia..|].
    unfold ChainProxy_generate_str. cbn [_sequence _agent_proxies _cumulative app].
    rewrite bind_assoc. apply bind_ext. intros first_proxy s1.
    rewrite bind_assoc. apply bind_ext. intros first_response s2.
    cbn [length Nat.eqb].
    change (second :: rest ++ [x]) with ((second :: rest) ++ [x]).
    rewrite for_each_app. apply bind_ext. intros transcript s3.
    simpl. rewrite bind_ret_r.
    apply bind_ext. intros proxy s4. apply bind_ext. intros agent_response s5.
    done.
Qed.

(** ** Chain: names missing from the registry *)

(** C10. A name of the sequence that is not in the registry makes
    [ChainProxy.generate_str] raise the [KeyError] of that name where
    the name is resolved, in either mode.  If it is the first name,
    nothing has been called and the state is untouched.  If the steps
    before it are registered and return, they have all been called, in
    order, when the error is raised: the journal holds exactly their
    calls, the backends are as the last of them left them, and no
    value is returned in place of the error. *)
Theorem chain_missing_name_KeyError name reg continue_with_final cumulative
    x after message kwargs s :
  reg !! x = None →
  ChainProxy_generate_str
    (mkChainProxy name (x :: after) reg continue_with_final cumulative)
    message kwargs s = (Raised (KeyError x), s) ∧
  (∀ first_agent p first_response w1 (later : list (StepAnswer World Value)),
     reg !! first_agent = Some p →
     generate_str p message kwargs (world s) = (Returned first_response, w1) →
     loop_answers reg (chain_upd cumulative)
       (chain_seed cumulative first_agent first_response) w1 later →
     ChainProxy_generate_str
       (mkChainProxy name
          (first_agent :: (step_name <$> later) ++ x :: after)
          reg continue_with_final cumulative)
       message kwargs s =
     (Raised (KeyError x),
      {| world := loop_world w1 later;
         calls := calls s ++
           CallGenerateStr p message kwargs (Returned first_response) ::
           loop_calls (chain_upd cumulative)
             (chain_seed cumulative first_agent first_response) later |})).
Proof.
  intros Hx. split.
  - unfold ChainProxy_generate_str. cbn [_sequence _agent_proxies].
    by erewrite bind_raised by by apply getitem_None.
  - intros first_agent p first_response w1 later Hp Hg Hlater.
    destruct (chain_after_first
                (mkChainProxy name
                   (first_agent :: (step_name <$> later) ++ x :: after)
                   reg continue_with_final cumulative)
                first_agent ((step_name <$> later) ++ x :: after)
                message kwargs s p first_response w1) as (body & Hbody & ->);
      try done.
    { by destruct later. }
    cbn [_agent_proxies _cumulative] in *.
    rewrite (for_each_answers_missing reg (chain_upd cumulative)) by done.
    cbn [world calls]. by rewrite <- app_assoc.
Qed.

End Theory.

(** * The theorems at work on the small installation *)

Section Demonstrations.

Import Demo.
Local Open Scope proxy_scope.

Lemma router_empty_classification_witness :
  route (_workflow (routing [])) "hi" (world start) = (Returned [], 1) ∧
  RouterProxy_generate_str (routing []) "hi" options start =
  (Returned "No appropriate route found for the request.",
   {| world := 1;
      calls := calls start ++ [CallRoute (_workflow (routing [])) "hi" (Returned [])] |}).
Proof.
  split; [reflexivity|].
  apply (router_empty_classification (routing []) "hi" options start 1).
  reflexivity.
Defined.

Lemma router_server_target_witness :
  route (_workflow (routing [to_server; to_writer])) "hi" (world start) =
    (Returned [to_server; to_writer], 1) ∧
  result to_server = TargetStr "fetch" ∧
  RouterProxy_generate_str (routing [to_server; to_writer]) "hi" options start =
  (Returned "Tool call requested by router - not yet supported",
   {| world := 1;
      calls := calls start ++
        [CallRoute (_workflow (routing [to_server; to_writer])) "hi"
           (Returned [to_server; to_writer])] |}).
Proof.
  split; [reflexivity|]. split; [reflexivity|].
  apply (router_server_target (routing [to_server; to_writer]) "hi" options
           start to_server [to_writer] "fetch" 1); reflexivity.
Defined.

Lemma router_agent_target_witness :
  route (_workflow (routing [to_writer; to_reviewer])) "hi" (world start) =
    (Returned [to_writer; to_reviewer], 1) ∧
  result to_writer = TargetAgent writer ∧
  RouterProxy_generate_str (routing [to_writer; to_reviewer]) "hi" options start =
  (Returned "writer read hi",
   {| world := 2;
      calls :=
        [CallRoute (_workflow (routing [to_writer; to_reviewer])) "hi"
           (Returned [to_writer; to_reviewer]);
         CallGenerateStr (_llm writer) "hi" options (Returned "writer read hi")] |}).
Proof.
  split; [reflexivity|]. split; [reflexivity|].
  exact (router_agent_target (routing [to_writer; to_reviewer]) "hi" options
           start to_writer [to_reviewer] writer 1 eq_refl eq_refl).
Defined.

Lemma chain_single_entry_direct_witness :
  _sequence (chain ["A"] false) = ["A"] ∧
  _agent_proxies (chain ["A"] false) !! "A" = Some (answering "A") ∧
  ChainProxy_generate_str (chain ["A"] false) "hi" options start =
  call_generate_str (answering "A") "hi" options start.
Proof.
  split; [reflexivity|]. split; [reflexivity|].
  apply (chain_single_entry_direct (chain ["A"] false) "A" (answering "A"));
    reflexivity.
Defined.

Lemma chain_cumulative_transcript_witness :
  (registry !! "A" = Some (answering "A") ∧
   registry !! "B" = Some (answering "B") ∧
   generate_str (answering "A") "hi" options (world start) =
     (Returned "A read hi", 1) ∧
   generate_str (answering "B")
     ("<" +:+ "A" +:+ ">" +:+ nl +:+ "A read hi" +:+ nl +:+ "</" +:+ "A" +:+ ">")
     ∅ 1 = (Returned ("B read " +:+ tagged_A), 2) ∧
   ChainProxy_generate_str (chain ["A"; "B"] true) "hi" options start =
   (Returned ("<A>" +:+ nl +:+ "A read hi" +:+ nl +:+ "</A>" +:+ nl +:+ nl +:+
              "<B>" +:+ nl +:+ "B read " +:+ tagged_A +:+ nl +:+ "</B>"),
    {| world := 2; calls := [call_A; call_B_cumulative] |})) ∧
  (2 ≤ length ["A"; "B"] ∧
   ChainProxy_generate_str (chain (["A"; "B"] ++ ["C"]) true) "hi" options start =
   (transcript <- ChainProxy_generate_str (chain ["A"; "B"] true) "hi" options ;;
    proxy <- getitem registry "C" ;;
    agent_response <- call_generate_str proxy transcript ∅ ;;
    ret (transcript +:+ nl +:+ nl +:+ "<" +:+ "C" +:+ ">" +:+ nl +:+
         agent_response +:+ nl +:+ "</" +:+ "C" +:+ ">")) start).
Proof.
  split.
  - do 4 (split; [reflexivity|]).
    exact (proj1 (chain_cumulative_transcript "chain" registry true)
             "A" "B" (answering "A") (answering "B") "hi" options start
             "A read hi" 1 ("B read " +:+ tagged_A) 2
             eq_refl eq_refl eq_refl eq_refl).
  - split; [simpl; lia|].
    apply (proj2 (chain_cumulative_transcript "chain" registry true)
             ["A"; "B"] "C" "hi" options start).
    simpl; lia.
Defined.

Lemma chain_sequential_pipeline_witness :
  _cumulative (chain ["A"; "B"; "C"] false) = false ∧
  2 ≤ length (_sequence (chain ["A"; "B"; "C"] false)) ∧
  ChainProxy_generate_str (chain ["A"; "B"; "C"] false) "hi" options start =
    (Returned "C read B read A read hi",
     {| world := 3; calls := [call_A; call_B_sequential; call_C_sequential] |}) ∧
  (∃ cs, [call_A; call_B_sequential; call_C_sequential] = calls start ++ cs ∧
     (∀ i c, cs !! i = Some c →
        ∃ agent_name p, ["A"; "B"; "C"] !! i = Some agent_name ∧
                        registry !! agent_name = Some p ∧
                        call_endpoint c = Some p) ∧
     (∀ i c1 c2, cs !! i = Some c1 → cs !! S i = Some c2 →
        ∃ a, call_returned c1 = Some a ∧ call_message c2 = a) ∧
     (∀ out, Returned "C read B read A read hi" = Returned out →
        length cs = 3 ∧ ∃ c, last cs = Some c ∧ call_returned c = Some out)) ∧
  _sequence (chain ["A"; "B"; "C"] false) =
    "A" :: (step_name <$> [answer_B_sequential; answer_C_sequential]) ∧
  registry !! "A" = Some (answering "A") ∧
  generate_str (answering "A") "hi" options (world start) =
    (Returned "A read hi", 1) ∧
  loop_answers registry sequential_upd "A read hi" 1
    [answer_B_sequential; answer_C_sequential] ∧
  ∃ final,
    last [answer_B_sequential; answer_C_sequential] = Some final ∧
    ChainProxy_generate_str (chain ["A"; "B"; "C"] false) "hi" options start =
    (Returned (step_answer final),
     {| world := step_world final;
        calls := calls start ++
          CallGenerateStr (answering "A") "hi" options (Returned "A read hi") ::
          loop_calls sequential_upd "A read hi"
            [answer_B_sequential; answer_C_sequential] |}).
Proof.
  assert (loop_answers registry sequential_upd "A read hi" 1
            [answer_B_sequential; answer_C_sequential]) as Hlater.
  { cbn. split_and!; reflexivity. }
  split; [reflexivity|]. split; [simpl; lia|]. split; [reflexivity|].
  destruct (chain_sequential_pipeline (chain ["A"; "B"; "C"] false) "hi"
              options start eq_refl) as [Hjournal Hruns]; [simpl; lia|].
  split.
  { apply (Hjournal (Returned "C read B read A read hi")
             {| world := 3;
                calls := [call_A; call_B_sequential; call_C_sequential] |}).
    reflexivity. }
  split; [reflexivity|]. split; [reflexivity|]. split; [reflexivity|].
  split; [exact Hlater|].
  exact (Hruns "A" (answering "A") "A read hi" 1
           [answer_B_sequential; answer_C_sequential]
           eq_refl eq_refl eq_refl Hlater).
Defined.

Lemma chain_options_first_step_only_witness :
  _sequence (chain ["A"; "B"] true) ≠ [] ∧
  ChainProxy_generate_str (chain ["A"; "B"] true) "hi" options start =
    (Returned (tagged_A +:+ nl +:+ nl +:+
               "<B>" +:+ nl +:+ "B read " +:+ tagged_A +:+ nl +:+ "</B>"),
     {| world := 2; calls := [call_A; call_B_cumulative] |}) ∧
  ∃ cs, [call_A; call_B_cumulative] = calls start ++ cs ∧
    (∀ first_agent p,
       ["A"; "B"] !! 0 = Some first_agent →
       registry !! first_agent = Some p →
       ∃ res, cs !! 0 = Some (CallGenerateStr p "hi" options res)) ∧
    (∀ i c, cs !! S i = Some c →
       call_kwargs c = ∅ ∧
       ∃ agent_name p, ["A"; "B"] !! S i = Some agent_name ∧
                       registry !! agent_name = Some p ∧
                       call_endpoint c = Some p).
Proof.
  split; [discriminate|]. split; [reflexivity|].
  apply (chain_options_first_step_only (chain ["A"; "B"] true) "hi" options start
           (Returned (tagged_A +:+ nl +:+ nl +:+
                      "<B>" +:+ nl +:+ "B read " +:+ tagged_A +:+ nl +:+ "</B>"))
           {| world := 2; calls := [call_A; call_B_cumulative] |});
    [discriminate|reflexivity].
Defined.

Lemma chain_failure_propagates_witness :
  ChainProxy_generate_str (chain ["A"; "X"; "C"] false) "hi" options start =
    (Raised (BackendError "X"), {| world := 2; calls := [call_A; call_X] |}) ∧
  [call_A; call_X] = calls start ++ [call_A; call_X] ∧
  [call_A; call_X] !! 1 = Some call_X ∧
  call_raised call_X = Some (BackendError "X") ∧
  (@Raised string (BackendError "X") = Raised (BackendError "X") ∧
   length [call_A; call_X] = 2 ∧
   ∃ agent_name p, ["A"; "X"; "C"] !! 1 = Some agent_name ∧
                   registry !! agent_name = Some p ∧
                   call_endpoint call_X = Some p).
Proof.
  do 4 (split; [reflexivity|]).
  apply (chain_failure_propagates (chain ["A"; "X"; "C"] false) "hi" options
           start (Raised (BackendError "X"))
           {| world := 2; calls := [call_A; call_X] |}
           [call_A; call_X] 1 call_X (BackendError "X")); reflexivity.
Defined.

Lemma chain_missing_name_KeyError_witness :
  registry !! "Z" = None ∧
  ChainProxy_generate_str (chain ("Z" :: ["C"]) false) "hi" options start =
    (Raised (KeyError "Z"), start) ∧
  registry !! "A" = Some (answering "A") ∧
  generate_str (answering "A") "hi" options (world start) =
    (Returned "A read hi", 1) ∧
  loop_answers registry (chain_upd false) (chain_seed false "A" "A read hi") 1
    [answer_B_sequential] ∧
  ChainProxy_generate_str
    (chain ("A" :: (step_name <$> [answer_B_sequential]) ++ "Z" :: ["C"]) false)
    "hi" options start =
  (Raised (KeyError "Z"),
   {| world := loop_world 1 [answer_B_sequential];
      calls := calls start ++
        CallGenerateStr (answering "A") "hi" options (Returned "A read hi") ::
        loop_calls (chain_upd false) (chain_seed false "A" "A read hi")
          [answer_B_sequential] |}).
Proof.
  assert (loop_answers registry (chain_upd false)
            (chain_seed false "A" "A read hi") 1 [answer_B_sequential])
    as Hlater.
  { cbn. split_and!; reflexivity. }
  destruct (chain_missing_name_KeyError "chain" registry true false "Z" ["C"]
              "hi" options start eq_refl) as [Hfirst Hlate].
  split; [reflexivity|]. split; [exact Hfirst|].
  split; [reflexivity|]. split; [reflexivity|]. split; [exact Hlater|].
  exact (Hlate "A" (answering "A") "A read hi" 1 [answer_B_sequential]
           eq_refl eq_refl Hlater).
Defined.

End Demonstrations.


(** * Further properties of the proxies *)

Section ChainOrder.

Context {World Value : Type}.
Local Open Scope proxy_scope.

Implicit Types (s : State World Value) (w : World).
Implicit Types (reg : gmap string (Endpoint World Value)).
Implicit Types (kwargs : gmap string Value) (message : string).
Implicit Types (cs : list (Call World Value)).

(** ** Links between consecutive calls, for any way of updating the
    running value *)

Lemma loop_run_link reg upd names acc w cs r w' i c1 c2 agent_name :
  loop_run reg upd names acc w cs r w' →
  cs !! i = Some c1 → cs !! S i = Some c2 → names !! i = Some agent_name →
  ∃ a, call_returned c1 = Some a ∧
       call_message c2 = upd agent_name (call_message c1) a.
Proof.
  intros Hrun. revert i.
  induction Hrun; intros [|i] Hc1 Hc2 Hn; simplify_eq/=; eauto.
  exists a. split; [done|]. by eapply loop_run_head.
Qed.

Lemma loop_run_last reg upd names acc w cs r w' out :
  loop_run reg upd names acc w cs r w' →
  r = Returned out → names ≠ [] →
  ∃ c agent_name a, last cs = Some c ∧ last names = Some agent_name ∧
                    call_returned c = Some a ∧
                    out = upd agent_name (call_message c) a.
Proof.
  induction 1 as [| | |agent_name names acc w p a w1 cs r w2 Hp Hg Hrun IH];
    intros Hr Hne; simplify_eq/=.
  destruct names as [|next names].
  { inversion Hrun; simplify_eq/=. eauto 10. }
  destruct (IH eq_refl) as (c & n & b & Hlast & Hn & Hb & Hout); [done|].
  exists c, n, b. split_and!; try done.
  inversion Hrun; simplify_eq/=; done.
Qed.

Lemma loop_run_all_but_last_returned reg upd names acc w cs r w' i c :
  loop_run reg upd names acc w cs r w' →
  cs !! i = Some c → S i < length cs → is_Some (call_returned c).
Proof.
  intros Hrun. revert i.
  induction Hrun; intros [|i] Hi Hlen; simplify_eq/=; eauto; try lia.
  apply (IHHrun i); [done|lia].
Qed.

(** X1. Whatever the mode and the outcome, the calls a chain makes are
    the calls of its steps in the order of the sequence, one for each
    step reached: the call at position [i] is to the proxy registered
    under the [i]-th name, every call but the last has returned, and a
    chain that returns has called every step exactly once. *)
Theorem chain_calls_follow_sequence (self : ChainProxy World Value)
    message kwargs s r s' :
  ChainProxy_generate_str self message kwargs s = (r, s') →
  ∃ cs, calls s' = calls s ++ cs ∧
    length cs ≤ length (_sequence self) ∧
    (∀ i c, cs !! i = Some c →
       ∃ agent_name p, _sequence self !! i = Some agent_name ∧
                       _agent_proxies self !! agent_name = Some p ∧
                       call_endpoint c = Some p) ∧
    (∀ i c, cs !! i = Some c → S i < length cs → is_Some (call_returned c)) ∧
    (∀ out, r = Returned out → length cs = length (_sequence self)).
Proof.
  intros Hgen. apply chain_generate_str_run in Hgen as (cs & Hcs & Hrun).
  assert (∀ i c, cs !! i = Some c →
       ∃ agent_name p, _sequence self !! i = Some agent_name ∧
                       _agent_proxies self !! agent_name = Some p ∧
                       call_endpoint c = Some p) as Hcallees.
  { intros i c. by eapply chain_run_callees. }
  exists cs. split_and!; [done| |done| |].
  - destruct (decide (length cs = 0)) as [->|Hne]; [lia|].
    destruct (lookup_lt_is_Some_2 cs (length cs - 1)) as [c Hc]; [lia|].
    destruct (Hcallees _ _ Hc) as (n & p & Hn & _).
    apply lookup_lt_Some in Hn. lia.
  - intros i c Hi Hlen.
    destruct Hrun as [| | | |first_agent rest p a w1 cs r w2 Hseq Hrest Hp Hg Hloop];
      simplify_eq/=; try lia.
    destruct i as [|i]; simplify_eq/=; [by eauto|].
    eapply loop_run_all_but_last_returned; [done..|lia].
  - intros out ->. by eapply chain_run_returned_length.
Qed.

(** ** Sequential chains compose *)

Lemma bind_ext_l {A B} (c c' : M World Value A) (k : A → M World Value B) s :
  c s = c' s → (x <- c ;; k x) s = (x <- c' ;; k x) s.
Proof. intros H. unfold bind. by rewrite H. Qed.

Lemma chain_sequential_unfold name reg cwf first_agent rest message kwargs s :
  ChainProxy_generate_str
    (mkChainProxy name (first_agent :: rest) reg cwf false) message kwargs s =
  (first_proxy <- getitem reg first_agent ;;
   first_response <- call_generate_str first_proxy message kwargs ;;
   for_each rest
     (λ agent_name current_message,
        proxy <- getitem reg agent_name ;;
        call_generate_str proxy current_message ∅)
     first_response) s.
Proof.
  unfold ChainProxy_generate_str. cbn [_sequence _agent_proxies _cumulative].
  by destruct rest.
Qed.

Lemma chain_sequential_no_kwargs name reg cwf names message s :
  ChainProxy_generate_str (mkChainProxy name names reg cwf false) message ∅ s =
  for_each names
    (λ agent_name current_message,
       proxy <- getitem reg agent_name ;;
       call_generate_str proxy current_message ∅)
    message s.
Proof.
  destruct names as [|first_agent rest]; [done|].
  rewrite chain_sequential_unfold. cbn [for_each]. by rewrite bind_assoc.
Qed.

(** X2. In sequential mode a chain over [xs ++ ys], [xs] not empty, is
    the chain over [xs] followed by the chain over [ys], which receives
    what the first returned as its message and no keyword argument. *)
Theorem chain_sequential_compose name reg continue_with_final
    (xs ys : list string) message kwargs s :
  xs ≠ [] →
  ChainProxy_generate_str
    (mkChainProxy name (xs ++ ys) reg continue_with_final false)
    message kwargs s =
  (mid <- ChainProxy_generate_str
            (mkChainProxy name xs reg continue_with_final false) message kwargs ;;
   ChainProxy_generate_str
     (mkChainProxy name ys reg continue_with_final false) mid ∅) s.
Proof.
  intros Hxs. destruct xs as [|first_agent rest]; [done|].
  change ((first_agent :: rest) ++ ys) with (first_agent :: (rest ++ ys)).
  rewrite chain_sequential_unfold. symmetry.
  etrans; [apply bind_ext_l, chain_sequential_unfold|].
  rewrite bind_assoc. apply bind_ext. intros first_proxy s1.
  rewrite bind_assoc. apply bind_ext. intros first_response s2.
  rewrite for_each_app. apply bind_ext. intros mid s3.
  apply chain_sequential_no_kwargs.
Qed.

End ChainOrder.

Section ChainCumulative.

Context {World Value : Type}.
Local Open Scope proxy_scope.

Implicit Types (s : State World Value) (w : World).
Implicit Types (reg : gmap string (Endpoint World Value)).
Implicit Types (kwargs : gmap string Value) (message : string).
Implicit Types (cs : list (Call World Value)).

(** X3. In cumulative mode, for a chain of at least two entries: the
    second call has for message the tagged block of the first step's
    answer; every later call has for message the message of the call
    before it, two line feeds, and the tagged block of what that call
    returned; and the value the chain returns is the message of the
    last call followed in the same way by the block of the last
    answer. *)
Theorem chain_cumulative_links (self : ChainProxy World Value)
    message kwargs s r s' :
  _cumulative self = true →
  2 ≤ length (_sequence self) →
  ChainProxy_generate_str self message kwargs s = (r, s') →
  ∃ cs, calls s' = calls s ++ cs ∧
    (∀ c1 c2 first_agent,
       cs !! 0 = Some c1 → cs !! 1 = Some c2 →
       _sequence self !! 0 = Some first_agent →
       ∃ a, call_returned c1 = Some a ∧ call_message c2 = tagged first_agent a) ∧
    (∀ i c1 c2 agent_name,
       cs !! S i = Some c1 → cs !! S (S i) = Some c2 →
       _sequence self !! S i = Some agent_name →
       ∃ a, call_returned c1 = Some a ∧
            call_message c2 =
            call_message c1 +:+ nl +:+ nl +:+ tagged agent_name a) ∧
    (∀ out, r = Returned out →
       ∃ c agent_name a,
         last cs = Some c ∧ last (_sequence self) = Some agent_name ∧
         call_returned c = Some a ∧
         out = call_message c +:+ nl +:+ nl +:+ tagged agent_name a).
Proof.
  intros Hmode Hlen Hgen.
  apply chain_generate_str_run in Hgen as (cs & Hcs & Hrun).
  exists cs. split; [done|].
  destruct Hrun as [Hseq|? ? Hseq|? ? ? ? ? Hseq|? ? ? ? Hseq
                   |first_agent rest p a w1 cs r w2 Hseq Hrest Hp Hg Hloop];
    try (rewrite Hseq in Hlen; simpl in Hlen; lia);
    try (split_and!; intros; simplify_eq/=; done).
  rewrite Hmode in Hloop. cbn [chain_upd chain_seed] in Hloop.
  rewrite Hseq. split_and!.
  - intros c1 c2 first Hc1 Hc2 Hfirst. simplify_eq/=.
    exists a. split; [done|]. by eapply loop_run_head.
  - intros i c1 c2 agent_name Hc1 Hc2 Hn. simplify_eq/=.
    by eapply (loop_run_link _ cumulative_upd).
  - intros out ->.
    destruct (loop_run_last _ _ _ _ _ _ _ _ out Hloop eq_refl Hrest)
      as (c & n & b & Hlast & Hn & Hb & Hout).
    exists c, n, b. split_and!; try done.
    + destruct cs; [done|]. done.
    + destruct rest; [done|]. done.
Qed.

(** ** The transcript in closed form *)

Lemma transcript_snoc (steps : list (string * string)) agent_name agent_response :
  steps ≠ [] →
  transcript (steps ++ [(agent_name, agent_response)]) =
  transcript steps +:+ nl +:+ nl +:+ tagged agent_name agent_response.
Proof.
  induction steps as [|[n a] steps IH]; [done|]. intros _.
  destruct steps as [|step steps]; [done|].
  change (transcript (((n, a) :: step :: steps) ++ [(agent_name, agent_response)]))
    with (tagged n a +:+ nl +:+ nl +:+
          transcript ((step :: steps) ++ [(agent_name, agent_response)])).
  rewrite IH by done.
  change (transcript ((n, a) :: step :: steps))
    with (tagged n a +:+ nl +:+ nl +:+ transcript (step :: steps)).
  by rewrite !string_app_assoc.
Qed.

Lemma loop_run_cumulative_transcript reg names acc w cs r w' out
    (steps : list (string * string)) :
  loop_run reg cumulative_upd names acc w cs r w' →
  r = Returned out → steps ≠ [] → acc = transcript steps →
  length (omap call_returned cs) = length names ∧
  out = transcript (steps ++ zip names (omap call_returned cs)).
Proof.
  intros Hrun. revert steps.
  induction Hrun as [| | |agent_name names acc w p a w1 cs r w2 Hp Hg Hrun IH];
    intros steps Hr Hne Hacc; simplify_eq/=.
  { by rewrite app_nil_r. }
  destruct (IH (steps ++ [(agent_name, a)])) as [Hlen Hout].
  - done.
  - by destruct steps.
  - unfold cumulative_upd. by rewrite transcript_snoc.
  - split; [by f_equal|]. by rewrite Hout, <- app_assoc.
Qed.

(** X4. In cumulative mode the value returned by a chain of at least two
    entries is the transcript of all its steps: for each name of the
    sequence, in order, the block "<name>", the answer of that step's
    call and "</name>" on three lines, with an empty line between
    consecutive blocks. *)
Theorem chain_cumulative_closed_form (self : ChainProxy World Value)
    message kwargs s out s' :
  _cumulative self = true →
  2 ≤ length (_sequence self) →
  ChainProxy_generate_str self message kwargs s = (Returned out, s') →
  ∃ cs, calls s' = calls s ++ cs ∧
    length (omap call_returned cs) = length (_sequence self) ∧
    out = transcript (zip (_sequence self) (omap call_returned cs)).
Proof.
  intros Hmode Hlen Hgen.
  apply chain_generate_str_run in Hgen as (cs & Hcs & Hrun).
  exists cs. split; [done|].
  remember (Returned out) as r eqn:Hr.
  destruct Hrun as [Hseq|? ? Hseq|? ? ? ? ? Hseq|? ? ? ? Hseq
                   |first_agent rest p a w1 cs r w2 Hseq Hrest Hp Hg Hloop];
    try (rewrite Hseq in Hlen; simpl in Hlen; lia); simplify_eq/=.
  rewrite Hmode in Hloop. cbn [chain_upd chain_seed] in Hloop.
  rewrite Hseq.
  destruct (loop_run_cumulative_transcript _ _ _ _ _ _ _ out
              [(first_agent, a)] Hloop) as [Hl Hout]; try done.
  split; [simpl; by f_equal|]. exact Hout.
Qed.

End ChainCumulative.

Section AdapterProperties.

Context {World Value : Type}.
Local Open Scope proxy_scope.

Implicit Types (s : State World Value) (w : World).
Implicit Types (reg : gmap string (Endpoint World Value)).
Implicit Types (kwargs : gmap string Value) (message : string).
Implicit Types (cs : list (Call World Value)).
Implicit Types (app : MCPApp World).

Lemma loop_run_det reg upd names acc w cs1 r1 w1 cs2 r2 w2 :
  loop_run reg upd names acc w cs1 r1 w1 →
  loop_run reg upd names acc w cs2 r2 w2 →
  r1 = r2 ∧ w1 = w2.
Proof.
  intros Hrun. revert cs2 r2 w2.
  induction Hrun; inversion 1; simplify_eq/=; eauto;
    try (match goal with
         | Ha : generate_str ?p ?m ?k ?w0 = _,
           Hb : generate_str ?p ?m ?k ?w0 = _ |- _ =>
           rewrite Ha in Hb; simplify_eq
         end); eauto.
Qed.

(** X5. A chain whose first step is a legacy [AgentProxy] gives the same
    outcome and leaves the backends in the same state whatever keyword
    arguments it is called with: the legacy proxy hands the message
    alone to [app.send], and no later step is given any. *)
Theorem chain_legacy_first_step_drops_options (self : ChainProxy World Value)
    app name first_agent rest message kwargs kwargs' s :
  _sequence self = first_agent :: rest →
  _agent_proxies self !! first_agent = Some (registered (AgentProxy app name)) →
  (ChainProxy_generate_str self message kwargs s).1 =
  (ChainProxy_generate_str self message kwargs' s).1 ∧
  world (ChainProxy_generate_str self message kwargs s).2 =
  world (ChainProxy_generate_str self message kwargs' s).2.
Proof.
  intros Hseq Hfirst.
  destruct (ChainProxy_generate_str self message kwargs s) as [r1 s1] eqn:H1.
  destruct (ChainProxy_generate_str self message kwargs' s) as [r2 s2] eqn:H2.
  apply chain_generate_str_run in H1 as (cs1 & _ & Hrun1).
  apply chain_generate_str_run in H2 as (cs2 & _ & Hrun2).
  simpl. revert Hrun1 Hrun2.
  generalize (world s1) (world s2). intros w1 w2 Hrun1 Hrun2.
  destruct Hrun1 as [H|? ? H H'|? ? ? ? ? H H' Hg1|? ? ? ? H H' Hg1
                    |? ? ? ? ? ? ? ? H ? H' Hg1 Hloop1];
    rewrite H in Hseq; simplify_eq/=;
    destruct Hrun2 as [H2|? ? H2 H2'|? ? ? ? ? H2 H2' Hg2|? ? ? ? H2 H2' Hg2
                      |? ? ? ? ? ? ? ? H2 ? H2' Hg2 Hloop2];
    rewrite H in H2; simplify_eq/=; try done;
    change (AgentProxy_generate_str app name message kwargs')
      with (AgentProxy_generate_str app name message kwargs) in Hg2;
    rewrite Hg1 in Hg2; simplify_eq; try done.
  by eapply loop_run_det.
Qed.

(** X6. A chain reached through [send] with a message calls its steps
    without any keyword argument, the first step included. *)
Theorem chain_send_passes_no_options app (self : ChainProxy World Value)
    message s r s' :
  BaseAgentProxy_send (ChainProxy_proxy app self) (Some message) s = (r, s') →
  ∃ cs, calls s' = calls s ++ cs ∧
        length cs ≤ length (_sequence self) ∧
        ∀ i c, cs !! i = Some c → call_kwargs c = ∅.
Proof.
  cbn [BaseAgentProxy_send ChainProxy_proxy proxy_generate_str].
  intros Hgen. apply chain_generate_str_run in Hgen as (cs & Hcs & Hrun).
  exists cs. split; [done|]. split.
  - destruct (decide (length cs = 0)) as [->|Hne]; [lia|].
    destruct (lookup_lt_is_Some_2 cs (length cs - 1)) as [c Hc]; [lia|].
    destruct (chain_run_callees _ _ _ _ _ _ _ _ _ Hrun Hc) as (n & p & Hn & _).
    apply lookup_lt_Some in Hn. lia.
  - intros [|i] c Hc; [|by eapply chain_run_later_kwargs].
    destruct Hrun; simplify_eq/=; done.
Qed.

(** ** Router *)

(** X8. [RouterProxy.generate_str] raises only what a backend raised:
    either [route] raised that exception, and then nothing else was
    called, or the first result was an agent whose [_llm] raised it. *)
Theorem router_raises_only_from_backends (self : RouterProxy World Value)
    message kwargs s e s' :
  RouterProxy_generate_str self message kwargs s = (Raised e, s') →
  (route (_workflow self) message (world s) = (Raised e, world s') ∧
   calls s' = calls s ++ [CallRoute (_workflow self) message (Raised e)]) ∨
  (∃ top_result others agent w1,
     route (_workflow self) message (world s) =
       (Returned (top_result :: others), w1) ∧
     result top_result = TargetAgent agent ∧
     generate_str (_llm agent) message kwargs w1 = (Raised e, world s')).
Proof.
  unfold RouterProxy_generate_str, bind, call_route.
  destruct (route (_workflow self) message (world s)) as [[results|e'] w1] eqn:Hroute.
  2:{ intros [= <- <-]. by left. }
  destruct results as [|top_result others]; [done|].
  destruct (result top_result) as [agent| |] eqn:Htop; [|done..].
  unfold call_generate_str. cbn.
  destruct (generate_str (_llm agent) message kwargs w1) as [r w2] eqn:Hg.
  intros [= -> <-]. right. by exists top_result, others, agent, w1.
Qed.

(** X9. Whatever the classification, [RouterProxy.generate_str] calls
    [route] once, first and with the message alone, and after it makes at
    most one call of [generate_str]: on the [_llm] of the agent of the
    first result, with the message and the keyword arguments it was
    given. *)
Theorem router_calls (self : RouterProxy World Value) message kwargs s r s' :
  RouterProxy_generate_str self message kwargs s = (r, s') →
  ∃ routed gens,
    calls s' = calls s ++ CallRoute (_workflow self) message routed :: gens ∧
    routed = (route (_workflow self) message (world s)).1 ∧
    length gens ≤ 1 ∧
    ∀ c, c ∈ gens →
      ∃ top_result others agent,
        routed = Returned (top_result :: others) ∧
        result top_result = TargetAgent agent ∧
        c = CallGenerateStr (_llm agent) message kwargs r.
Proof.
  unfold RouterProxy_generate_str, bind, call_route.
  destruct (route (_workflow self) message (world s)) as [[results|e'] w1] eqn:Hroute.
  2:{ intros [= <- <-]. exists (Raised e'), []. cbn. split_and!; try done.
      - lia.
      - intros c Hc. by apply elem_of_nil in Hc. }
  assert (∀ x, (x, {| world := w1;
                      calls := calls s ++
                        [CallRoute (_workflow self) message (Returned results)] |})
               = (r, s') →
     ∃ routed gens,
       calls s' = calls s ++ CallRoute (_workflow self) message routed :: gens ∧
       routed = Returned results ∧ length gens ≤ 1 ∧
       ∀ c, c ∈ gens → False) as Hnone.
  { intros x [= <- <-]. exists (Returned results), []. cbn.
    split_and!; try done; [lia|]. intros c Hc. by apply elem_of_nil in Hc. }
  destruct results as [|top_result others].
  { intros H. destruct (Hnone _ H) as (routed & gens & ? & ? & ? & Hg).
    exists routed, gens. split_and!; try done. intros c Hc. by destruct (Hg c). }
  destruct (result top_result) as [agent| |] eqn:Htop.
  - unfold call_generate_str. cbn.
    destruct (generate_str (_llm agent) message kwargs w1) as [r0 w2] eqn:Hg.
    intros [= <- <-]. cbn.
    exists (Returned (top_result :: others)),
      [CallGenerateStr (_llm agent) message kwargs r0].
    split_and!; try done.
    + by rewrite <- app_assoc.
    + intros c Hc. apply list_elem_of_singleton in Hc as ->.
      by exists top_result, others, agent.
  - intros H. destruct (Hnone _ H) as (routed & gens & ? & ? & ? & Hg).
    exists routed, gens. split_and!; try done. intros c Hc. by destruct (Hg c).
  - intros H. destruct (Hnone _ H) as (routed & gens & ? & ? & ? & Hg).
    exists routed, gens. split_and!; try done. intros c Hc. by destruct (Hg c).
Qed.

End AdapterProperties.

(** * The further properties at work on the small installation *)

Section FurtherDemonstrations.

Import Demo.
Local Open Scope proxy_scope.

Lemma chain_calls_follow_sequence_witness :
  ChainProxy_generate_str (chain ["A"; "X"; "C"] false) "hi" options start =
    (Raised (BackendError "X"), {| world := 2; calls := [call_A; call_X] |}) ∧
  ∃ cs, [call_A; call_X] = calls start ++ cs ∧
    length cs ≤ 3 ∧
    (∀ i c, cs !! i = Some c →
       ∃ agent_name p, ["A"; "X"; "C"] !! i = Some agent_name ∧
                       registry !! agent_name = Some p ∧
                       call_endpoint c = Some p) ∧
    (∀ i c, cs !! i = Some c → S i < length cs → is_Some (call_returned c)) ∧
    (∀ out, @Raised string (BackendError "X") = Returned out → length cs = 3).
Proof.
  split; [reflexivity|].
  apply (chain_calls_follow_sequence (chain ["A"; "X"; "C"] false) "hi" options
           start (Raised (BackendError "X"))
           {| world := 2; calls := [call_A; call_X] |}).
  reflexivity.
Defined.

Lemma chain_sequential_compose_witness :
  ["A"] ≠ [] ∧
  ChainProxy_generate_str (chain (["A"] ++ ["B"; "C"]) false) "hi" options start =
  (mid <- ChainProxy_generate_str (chain ["A"] false) "hi" options ;;
   ChainProxy_generate_str (chain ["B"; "C"] false) mid ∅) start.
Proof.
  split; [discriminate|].
  apply (chain_sequential_compose "chain" registry true ["A"] ["B"; "C"]
           "hi" options start).
  discriminate.
Defined.

Lemma chain_cumulative_links_witness :
  _cumulative (chain ["A"; "B"] true) = true ∧
  2 ≤ length (_sequence (chain ["A"; "B"] true)) ∧
  ChainProxy_generate_str (chain ["A"; "B"] true) "hi" options start =
    (Returned (tagged_A +:+ nl +:+ nl +:+
               "<B>" +:+ nl +:+ "B read " +:+ tagged_A +:+ nl +:+ "</B>"),
     {| world := 2; calls := [call_A; call_B_cumulative] |}) ∧
  ∃ cs, [call_A; call_B_cumulative] = calls start ++ cs ∧
    (∀ c1 c2 first_agent,
       cs !! 0 = Some c1 → cs !! 1 = Some c2 →
       ["A"; "B"] !! 0 = Some first_agent →
       ∃ a, call_returned c1 = Some a ∧ call_message c2 = tagged first_agent a) ∧
    (∀ i c1 c2 agent_name,
       cs !! S i = Some c1 → cs !! S (S i) = Some c2 →
       ["A"; "B"] !! S i = Some agent_name →
       ∃ a, call_returned c1 = Some a ∧
            call_message c2 =
            call_message c1 +:+ nl +:+ nl +:+ tagged agent_name a) ∧
    (∀ out, Returned (tagged_A +:+ nl +:+ nl +:+
                      "<B>" +:+ nl +:+ "B read " +:+ tagged_A +:+ nl +:+ "</B>")
            = Returned out →
       ∃ c agent_name a,
         last cs = Some c ∧ last ["A"; "B"] = Some agent_name ∧
         call_returned c = Some a ∧
         out = call_message c +:+ nl +:+ nl +:+ tagged agent_name a).
Proof.
  split; [reflexivity|]. split; [simpl; lia|]. split; [reflexivity|].
  apply (chain_cumulative_links (chain ["A"; "B"] true) "hi" options start
           (Returned (tagged_A +:+ nl +:+ nl +:+
                      "<B>" +:+ nl +:+ "B read " +:+ tagged_A +:+ nl +:+ "</B>"))
           {| world := 2; calls := [call_A; call_B_cumulative] |});
    [reflexivity|simpl; lia|reflexivity].
Defined.

Lemma chain_cumulative_closed_form_witness :
  _cumulative (chain ["A"; "B"] true) = true ∧
  2 ≤ length (_sequence (chain ["A"; "B"] true)) ∧
  ChainProxy_generate_str (chain ["A"; "B"] true) "hi" options start =
    (Returned (transcript [("A", "A read hi"); ("B", "B read " +:+ tagged_A)]),
     {| world := 2; calls := [call_A; call_B_cumulative] |}) ∧
  ∃ cs, [call_A; call_B_cumulative] = calls start ++ cs ∧
    length (omap call_returned cs) = 2 ∧
    transcript [("A", "A read hi"); ("B", "B read " +:+ tagged_A)] =
    transcript (zip ["A"; "B"] (omap call_returned cs)).
Proof.
  split; [reflexivity|]. split; [simpl; lia|]. split; [reflexivity|].
  apply (chain_cumulative_closed_form (chain ["A"; "B"] true) "hi" options start
           (transcript [("A", "A read hi"); ("B", "B read " +:+ tagged_A)])
           {| world := 2; calls := [call_A; call_B_cumulative] |});
    [reflexivity|simpl; lia|reflexivity].
Defined.

Lemma chain_legacy_first_step_drops_options_witness :
  _sequence legacy_chain = ["L"; "B"] ∧
  _agent_proxies legacy_chain !! "L" = Some (registered (AgentProxy host "legacy")) ∧
  (ChainProxy_generate_str legacy_chain "hi" options start).1 =
  (ChainProxy_generate_str legacy_chain "hi" ∅ start).1 ∧
  world (ChainProxy_generate_str legacy_chain "hi" options start).2 =
  world (ChainProxy_generate_str legacy_chain "hi" ∅ start).2.
Proof.
  split; [reflexivity|]. split; [reflexivity|].
  apply (chain_legacy_first_step_drops_options legacy_chain host "legacy"
           "L" ["B"] "hi" options ∅ start); reflexivity.
Defined.

Lemma chain_send_passes_no_options_witness :
  BaseAgentProxy_send (ChainProxy_proxy host (chain ["A"; "B"] false))
    (Some "hi") start =
    (Returned "B read A read hi",
     {| world := 2; calls := [call_A_plain; call_B_sequential] |}) ∧
  ∃ cs, [call_A_plain; call_B_sequential] = calls start ++ cs ∧
        length cs ≤ 2 ∧
        ∀ i c, cs !! i = Some c → call_kwargs c = ∅.
Proof.
  split; [reflexivity|].
  apply (chain_send_passes_no_options host (chain ["A"; "B"] false) "hi" start
           (Returned "B read A read hi")
           {| world := 2; calls := [call_A_plain; call_B_sequential] |}).
  reflexivity.
Defined.

Lemma router_raises_only_from_backends_witness :
  RouterProxy_generate_str (routing [to_broken; to_writer]) "hi" options start =
    (Raised (BackendError "broken"),
     {| world := 2;
        calls := [CallRoute (_workflow (routing [to_broken; to_writer])) "hi"
                    (Returned [to_broken; to_writer]);
                  CallGenerateStr (failing "broken") "hi" options
                    (Raised (BackendError "broken"))] |}) ∧
  ∃ top_result others agent w1,
    route (_workflow (routing [to_broken; to_writer])) "hi" 0 =
      (Returned (top_result :: others), w1) ∧
    result top_result = TargetAgent agent ∧
    generate_str (_llm agent) "hi" options w1 = (Raised (BackendError "broken"), 2).
Proof.
  split; [reflexivity|].
  destruct (router_raises_only_from_backends (routing [to_broken; to_writer])
              "hi" options start (BackendError "broken")
              {| world := 2;
                 calls := [CallRoute (_workflow (routing [to_broken; to_writer]))
                             "hi" (Returned [to_broken; to_writer]);
                           CallGenerateStr (failing "broken") "hi" options
                             (Raised (BackendError "broken"))] |} eq_refl)
    as [[Hroute _]|H]; [discriminate Hroute|exact H].
Defined.

Lemma router_calls_witness :
  RouterProxy_generate_str (routing [to_writer; to_reviewer]) "hi" options start =
    (Returned "writer read hi",
     {| world := 2;
        calls := [CallRoute (_workflow (routing [to_writer; to_reviewer])) "hi"
                    (Returned [to_writer; to_reviewer]);
                  CallGenerateStr (_llm writer) "hi" options
                    (Returned "writer read hi")] |}) ∧
  ∃ routed gens,
    [CallRoute (_workflow (routing [to_writer; to_reviewer])) "hi"
       (Returned [to_writer; to_reviewer]);
     CallGenerateStr (_llm writer) "hi" options (Returned "writer read hi")] =
    calls start ++
      CallRoute (_workflow (routing [to_writer; to_reviewer])) "hi" routed :: gens ∧
    routed = (route (_workflow (routing [to_writer; to_reviewer])) "hi"
                (world start)).1 ∧
    length gens ≤ 1 ∧
    ∀ c, c ∈ gens →
      ∃ top_result others agent,
        routed = Returned (top_result :: others) ∧
        result top_result = TargetAgent agent ∧
        c = CallGenerateStr (_llm agent) "hi" options (Returned "writer read hi").
Proof.
  split; [reflexivity|].
  apply (router_calls (routing [to_writer; to_reviewer]) "hi" options start
           (Returned "writer read hi")
           {| world := 2;
              calls := [CallRoute (_workflow (routing [to_writer; to_reviewer]))
                          "hi" (Returned [to_writer; to_reviewer]);
                        CallGenerateStr (_llm writer) "hi" options
                          (Returned "writer read hi")] |}).
  reflexivity.
Defined.

End FurtherDemonstrations.

(** * Properties of the prompt server *)

Section MimeTypes.

Import PromptServer.

Lemma text_prefix_not_image (mime_type : string) :
  startswith mime_type "text/" = true → startswith mime_type "image/" = false.
Proof.
  unfold startswith. destruct mime_type as [|c rest]; [done|].
  cbn [String.prefix].
  destruct (Ascii.ascii_dec _ c) as [<-|]; [|done]. intros _.
  by destruct (Ascii.ascii_dec _ _).
Qed.

(** X10. A MIME type is treated as binary exactly when it does not start
    with "text/": the image test of [is_binary_content] never adds a
    type, since no image type starts with "text/". *)
Theorem is_binary_content_iff_not_text (mime_type : string) :
  is_binary_content mime_type = negb (startswith mime_type "text/").
Proof.
  unfold is_binary_content, is_image_mime_type.
  destruct (startswith mime_type "text/") eqn:Htext; simpl.
  - by rewrite (text_prefix_not_image _ Htext).
  - by rewrite orb_true_r.
Qed.

Lemma MIME_TYPES_lookup (extension : string) :
  (MIME_TYPES !! extension = None ∧
   extension ∉ [".txt"; ".md"; ".json"; ".py"; ".js"; ".html"; ".css"; ".csv";
                ".jpg"; ".jpeg"; ".png"; ".gif"; ".svg"; ".webp"; ".bmp";
                ".tiff"; ".tif"; ".ico"; ".pdf"]) ∨
  (extension, MIME_TYPES !! extension) ∈
    [ (".txt", Some "text/plain"); (".md", Some "text/markdown");
      (".json", Some "application/json"); (".py", Some "text/x-python");
      (".js", Some "text/javascript"); (".html", Some "text/html");
      (".css", Some "text/css"); (".csv", Some "text/csv");
      (".jpg", Some "image/jpeg"); (".jpeg", Some "image/jpeg");
      (".png", Some "image/png"); (".gif", Some "image/gif");
      (".svg", Some "image/svg+xml"); (".webp", Some "image/webp");
      (".bmp", Some "image/bmp"); (".tiff", Some "image/tiff");
      (".tif", Some "image/tiff"); (".ico", Some "image/x-icon");
      (".pdf", Some "application/pdf") ].
Proof.
  unfold MIME_TYPES. cbn [list_to_map foldr uncurry fst snd].
  repeat (rewrite lookup_insert; case_decide;
          [subst extension; right;
           repeat first [apply list_elem_of_here|apply list_elem_of_further]|]).
  rewrite lookup_empty. left. split; [done|].
  rewrite !not_elem_of_cons. split_and!; try (by apply not_eq_sym).
  apply not_elem_of_nil.
Qed.

Local Ltac in_list :=
  solve [repeat first [apply list_elem_of_here|apply list_elem_of_further]].

Local Ltac not_in_list H :=
  exfalso; repeat (apply elem_of_cons in H as [?|H]; [congruence|]);
  by apply elem_of_nil in H.

Local Ltac decide_class :=
  split; intros Hclass; first [done|in_list|not_in_list Hclass].

(** X11. What [guess_mime_type] answers is treated as text exactly for
    the extensions .txt .md .py .js .html .css .csv, and as an image
    exactly for .jpg .jpeg .png .gif .webp .bmp .tiff .tif .ico, the
    extension being the lower-cased suffix of the path; every other
    path, .json, .svg, .pdf and unknown extensions included, is binary
    and not an image. *)
Theorem guess_mime_type_classes (lib : Library) (file_path : string) :
  let extension := str_lower lib (path_suffix lib file_path) in
  (is_binary_content (guess_mime_type lib file_path) = false ↔
   extension ∈ [".txt"; ".md"; ".py"; ".js"; ".html"; ".css"; ".csv"]) ∧
  (is_image_mime_type (guess_mime_type lib file_path) = true ↔
   extension ∈ [".jpg"; ".jpeg"; ".png"; ".gif"; ".webp"; ".bmp"; ".tiff";
                ".tif"; ".ico"]).
Proof.
  intros extension. unfold guess_mime_type. fold extension.
  destruct (MIME_TYPES_lookup extension) as [[Hnone Hnot]|Hin].
  - rewrite Hnone. cbn [default from_option id].
    rewrite !not_elem_of_cons in Hnot. destruct_and!.
    vm_compute (is_binary_content _). vm_compute (is_image_mime_type _).
    split; decide_class.
  - repeat (apply elem_of_cons in Hin as [[= -> Heq]|Hin];
            [rewrite Heq; cbn [default from_option id];
             vm_compute (is_binary_content _);
             vm_compute (is_image_mime_type _);
             split; decide_class|]).
    by apply elem_of_nil in Hin.
Qed.

(** X12. [cast_message_role] always answers "user" or "assistant", keeps
    a role that is one of the two, and casting twice is casting once. *)
Theorem cast_message_role_valid (role : string) :
  cast_message_role role ∈ ["user"; "assistant"] ∧
  (role ∈ ["user"; "assistant"] → cast_message_role role = role) ∧
  cast_message_role (cast_message_role role) = cast_message_role role.
Proof.
  unfold cast_message_role.
  destruct (bool_decide (role = "user")) eqn:Huser;
    [apply bool_decide_eq_true in Huser as ->|apply bool_decide_eq_false in Huser];
    cbn [orb].
  { split_and!; [in_list|done|done]. }
  destruct (bool_decide (role = "assistant")) eqn:Hassistant;
    [apply bool_decide_eq_true in Hassistant as ->
    |apply bool_decide_eq_false in Hassistant].
  { split_and!; [in_list|done|done]. }
  split_and!; [in_list| |done].
  intros Hin. not_in_list Hin.
Qed.

(** X13. For a resource that loads, the flag [is_binary] is true exactly
    when the MIME type does not start with "text/".  Building its
    message raises only when the type is not an image type and the
    resource URI is rejected; otherwise the message holds the loaded
    content under that MIME type: as an image when the type is an image
    type, as a text resource when the type starts with "text/", and as
    a blob otherwise, with the validated URI; it is never a plain text
    content. *)
Theorem loaded_resource_message_kind (lib : Library) (fs : FileSystem)
    resource_path prompt_files content mime_type is_binary role :
  load_resource_content lib fs resource_path prompt_files =
    Ok (content, mime_type, is_binary) →
  is_binary = negb (startswith mime_type "text/") ∧
  match create_resource_message lib resource_path content mime_type
          is_binary role with
  | Ok m =>
    match message_content m with
    | ImageContent data mimeType =>
      data = content ∧ mimeType = mime_type ∧
      is_image_mime_type mime_type = true
    | EmbeddedResource (TextResourceContents uri mimeType text) =>
      text = content ∧ mimeType = mime_type ∧
      any_url lib (create_resource_uri lib resource_path) = Some uri ∧
      startswith mime_type "text/" = true
    | EmbeddedResource (BlobResourceContents uri mimeType blob) =>
      blob = content ∧ mimeType = mime_type ∧
      any_url lib (create_resource_uri lib resource_path) = Some uri ∧
      is_image_mime_type mime_type = false ∧
      startswith mime_type "text/" = false
    | TextContent _ => False
    end
  | Err e =>
    e = ValidationError (create_resource_uri lib resource_path) ∧
    is_image_mime_type mime_type = false ∧
    any_url lib (create_resource_uri lib resource_path) = None
  end.
Proof.
  intros Hload.
  assert (is_binary = negb (startswith mime_type "text/")) as ->.
  { revert Hload. unfold load_resource_content.
    destruct (find_resource_file lib fs resource_path prompt_files)
      as [resource_file|]; [|done].
    cbn zeta. rewrite is_binary_content_iff_not_text.
    destruct (negb (startswith (guess_mime_type lib resource_file) "text/")) eqn:Hb.
    - destruct (read_bytes fs resource_file); [|done].
      intros [= <- <- <-]. by rewrite Hb.
    - destruct (read_text fs resource_file); [|done].
      intros [= <- <- <-]. by rewrite Hb. }
  split; [done|].
  unfold create_resource_message, create_embedded_resource, create_image_content.
  destruct (is_image_mime_type mime_type) eqn:Himage.
  { by destruct (bool_decide (role = "user")). }
  cbn zeta.
  destruct (startswith mime_type "text/") eqn:Htext; cbn [negb];
    destruct (any_url lib (create_resource_uri lib resource_path)) eqn:Hurl;
    try done; by destruct (bool_decide (role = "user")).
Qed.

End MimeTypes.

Section PromptMessages.

Import PromptServer.

Variables (lib : Library) (fs : FileSystem) (prompt_files : list string).

Lemma try_is_resource_message (role resource_path : string) :
  match load_resource_content lib fs resource_path prompt_files with
  | Ok (resource_content, mime_type, is_binary) =>
    match create_resource_message lib resource_path resource_content
            mime_type is_binary role with
    | Ok m => Some m
    | Err _ => None
    end
  | Err _ => None
  end = resource_message lib fs prompt_files role resource_path.
Proof.
  unfold resource_message, create_resource_message, create_embedded_resource,
    create_image_content.
  destruct (load_resource_content lib fs resource_path prompt_files)
    as [[[resource_content mime_type] is_binary]|e]; [|done].
  destruct (is_image_mime_type mime_type); [done|]. cbn zeta.
  by destruct is_binary,
       (any_url lib (create_resource_uri lib resource_path)).
Qed.

Lemma resource_loop (role : string) (paths : list string) (messages : list Message) :
  fold_left
    (λ messages resource_path,
       match load_resource_content lib fs resource_path prompt_files with
       | Ok (resource_content, mime_type, is_binary) =>
         match create_resource_message lib resource_path
                 resource_content mime_type is_binary role with
         | Ok resource_message => messages ++ [resource_message]
         | Err e => messages
         end
       | Err e => messages
       end) paths messages =
  messages ++ omap (resource_message lib fs prompt_files role) paths.
Proof.
  revert messages. induction paths as [|resource_path paths IH]; intros messages.
  { by rewrite app_nil_r. }
  cbn [fold_left omap list_omap]. rewrite IH.
  rewrite <- (try_is_resource_message role resource_path).
  destruct (load_resource_content lib fs resource_path prompt_files)
    as [[[resource_content mime_type] is_binary]|e]; [|done].
  destruct (create_resource_message lib resource_path resource_content
              mime_type is_binary role); [|done].
  by rewrite <- app_assoc.
Qed.

Lemma sections_loop (content_sections : list PromptContent)
    (messages : list Message) :
  fold_left
    (λ messages section,
       let role := cast_message_role (role section) in
       let messages := messages ++ [create_content_message (text section) role] in
       fold_left
         (λ messages resource_path,
            match load_resource_content lib fs resource_path prompt_files with
            | Ok (resource_content, mime_type, is_binary) =>
              match create_resource_message lib resource_path
                      resource_content mime_type is_binary role with
              | Ok resource_message => messages ++ [resource_message]
              | Err e => messages
              end
            | Err e => messages
            end)
         (resources section) messages)
    content_sections messages =
  messages ++ content_sections ≫= section_messages lib fs prompt_files.
Proof.
  revert messages.
  induction content_sections as [|section sections IH]; intros messages.
  { by rewrite app_nil_r. }
  cbn [fold_left]. rewrite IH. cbn zeta. rewrite resource_loop.
  cbn [mbind list_bind]. unfold section_messages at 2.
  by rewrite <- !app_assoc.
Qed.

(** X14. [create_messages_with_resources] answers, section after section
    in the order given, the text message of the section followed by one
    message for each of its resources that loads and whose message can
    be built, in the order of the resources; a resource that does not
    load, or whose URI is rejected when it is to be embedded, leaves no
    message and changes nothing else. *)
Theorem create_messages_with_resources_sections
    (content_sections : list PromptContent) :
  create_messages_with_resources lib fs content_sections prompt_files =
  content_sections ≫= section_messages lib fs prompt_files.
Proof. unfold create_messages_with_resources. by rewrite sections_loop. Qed.

Lemma resource_message_not_text role resource_path m :
  resource_message lib fs prompt_files role resource_path = Some m →
  message_text m = None.
Proof.
  unfold resource_message.
  destruct (load_resource_content lib fs resource_path prompt_files)
    as [[[resource_content mime_type] is_binary]|e]; [|done].
  destruct (is_image_mime_type mime_type).
  { intros [= <-]. by destruct (bool_decide (role = "user")). }
  destruct (any_url lib (create_resource_uri lib resource_path)); [|done].
  intros [= <-]. by destruct (bool_decide (role = "user")), is_binary.
Qed.

Lemma section_messages_text (section : PromptContent) :
  omap message_text (section_messages lib fs prompt_files section) =
  [text section].
Proof.
  unfold section_messages. cbn [omap list_omap].
  assert (message_text (create_content_message (text section)
            (cast_message_role (role section))) = Some (text section)) as ->.
  { unfold create_content_message. by destruct (bool_decide _). }
  f_equal.
  induction (resources section) as [|resource_path paths IH]; [done|].
  cbn [omap list_omap].
  destruct (resource_message lib fs prompt_files
              (cast_message_role (role section)) resource_path) as [m|] eqn:Hm;
    cbn [omap list_omap]; [|done].
  by rewrite (resource_message_not_text _ _ _ Hm).
Qed.

(** X15. The text contents among the messages answered are exactly the
    texts of the sections, in order: no section's text is lost or
    repeated whether resources load, fail to load or fail to be
    embedded, and no resource is turned into a plain text content. *)
Theorem create_messages_with_resources_texts
    (content_sections : list PromptContent) :
  omap message_text
    (create_messages_with_resources lib fs content_sections prompt_files) =
  text <$> content_sections.
Proof.
  rewrite create_messages_with_resources_sections.
  induction content_sections as [|section sections IH]; [done|].
  cbn [mbind list_bind fmap list_fmap].
  by rewrite omap_app, section_messages_text, IH.
Qed.

Lemma section_messages_role (section : PromptContent) (m : Message) :
  m ∈ section_messages lib fs prompt_files section →
  message_role m = cast_message_role (role section).
Proof.
  assert (∀ c, message_role
            ((if bool_decide (cast_message_role (role section) = "user")
              then UserMessage else AssistantMessage) c)
          = cast_message_role (role section)) as Hclass.
  { intros c. destruct (cast_message_role_valid (role section)) as (Hin & _ & _).
    apply elem_of_cons in Hin as [->|Hin]; [done|].
    apply elem_of_cons in Hin as [->|Hin]; [done|].
    by apply elem_of_nil in Hin. }
  unfold section_messages. intros [->|Hin]%elem_of_cons.
  { apply Hclass. }
  apply list_elem_of_omap in Hin as (resource_path & _ & Hm).
  revert Hm. unfold resource_message.
  destruct (load_resource_content lib fs resource_path prompt_files)
    as [[[resource_content mime_type] is_binary]|e]; [|done].
  destruct (is_image_mime_type mime_type).
  { intros [= <-]. apply Hclass. }
  destruct (any_url lib (create_resource_uri lib resource_path)); [|done].
  intros [= <-]. apply Hclass.
Qed.

(** X16. Every message answered carries the role of a section it was
    built for, after casting: a user message unless that section's role
    is "assistant", whatever the section's role string is. *)
Theorem create_messages_with_resources_roles
    (content_sections : list PromptContent) (m : Message) :
  m ∈ create_messages_with_resources lib fs content_sections prompt_files →
  ∃ section, section ∈ content_sections ∧
             message_role m = cast_message_role (role section) ∧
             (message_role m = "assistant" ↔ role section = "assistant").
Proof.
  rewrite create_messages_with_resources_sections.
  intros (section & Hm & Hsection)%list_elem_of_bind.
  exists section. split; [done|].
  apply section_messages_role in Hm. split; [done|]. rewrite Hm.
  unfold cast_message_role.
  destruct (bool_decide (role section = "user")) eqn:Huser; cbn [orb].
  { apply bool_decide_eq_true in Huser. by rewrite Huser. }
  destruct (bool_decide (role section = "assistant")) eqn:Hassistant.
  { by apply bool_decide_eq_true in Hassistant. }
  apply bool_decide_eq_false in Hassistant. done.
Qed.

End PromptMessages.

Section PromptNames.

Import PromptServer.

Implicit Types (prompt_registry : gmap string PromptMetadata).
Implicit Types (metadata : PromptMetadata).

Lemma string_app_inv_head (x y z : string) : x +:+ y = x +:+ z → y = z.
Proof.
  induction x as [|c x IH]; [done|].
  change (String c (x +:+ y) = String c (x +:+ z) → y = z).
  intros [= H]. by apply IH.
Qed.

Lemma string_app_self (x y : string) : x = x +:+ y → y = "".
Proof.
  induction x as [|c x IH]; [done|].
  change (String c x = String c (x +:+ y) → y = "").
  intros [= H]. by apply IH.
Qed.

Lemma suffixed_inj base_name : Inj (=) (=) (suffixed base_name).
Proof.
  intros i j H. unfold suffixed in H.
  apply string_app_inv_head in H.
  apply (string_app_inv_head "_") in H.
  by apply (inj pretty) in H.
Qed.

Lemma suffixed_not_base base_name suffix : base_name ≠ suffixed base_name suffix.
Proof. intros H. by apply string_app_self in H. Qed.

(** What the loop answers is free, and is the name it was given or a
    suffixed one. *)
Lemma while_registered_free fuel prompt_registry base_name prompt_name suffix n :
  while_registered fuel prompt_registry base_name prompt_name suffix = Some n →
  prompt_registry !! n = None ∧
  (n = prompt_name ∨ ∃ k, suffix ≤ k ∧ n = suffixed base_name k).
Proof.
  revert prompt_name suffix.
  induction fuel as [|fuel IH]; intros prompt_name suffix; cbn [while_registered];
    case_bool_decide as Hreg; try done.
  - intros [= <-]. split; [|by left].
    by apply eq_None_not_Some.
  - intros (Hfree & [->|(k & Hk & ->)])%IH.
    + split; [done|]. right. by exists suffix.
    + split; [done|]. right. exists k. split; [lia|done].
  - intros [= <-]. split; [|by left].
    by apply eq_None_not_Some.
Qed.

(** When the fuel runs out, every name tried was registered. *)
Lemma while_registered_out fuel prompt_registry base_name prompt_name suffix :
  while_registered fuel prompt_registry base_name prompt_name suffix = None →
  is_Some (prompt_registry !! prompt_name) ∧
  ∀ k, suffix ≤ k < suffix + fuel →
       is_Some (prompt_registry !! suffixed base_name k).
Proof.
  revert prompt_name suffix.
  induction fuel as [|fuel IH]; intros prompt_name suffix; cbn [while_registered];
    case_bool_decide as Hreg; try done.
  - intros _. split; [done|]. intros k Hk. lia.
  - intros [Hnext Hlater]%IH. split; [done|]. intros k Hk.
    destruct (decide (k = suffix)) as [->|Hne]; [done|].
    apply Hlater. lia.
Qed.

Lemma registered_names_bound prompt_registry (names : list string) :
  NoDup names →
  (∀ n, n ∈ names → is_Some (prompt_registry !! n)) →
  length names ≤ size prompt_registry.
Proof.
  intros Hnodup Hin.
  rewrite <- size_dom, <- (size_list_to_set (C := gset string) names) by done.
  apply subseteq_size. intros n Hn.
  apply elem_of_list_to_set in Hn. apply elem_of_dom. by apply Hin.
Qed.

(** X17. The renaming loop of [register_prompt] ends within as many
    rounds as the registry has entries, and the name it settles on is
    not in the registry: the prompt's own name when that is free,
    otherwise the name followed by "_" and a number from 1 on. *)
Theorem unique_prompt_name_free prompt_registry metadata :
  ∃ prompt_name,
    unique_prompt_name prompt_registry metadata = Some prompt_name ∧
    prompt_registry !! prompt_name = None ∧
    (prompt_registry !! name metadata = None → prompt_name = name metadata) ∧
    (is_Some (prompt_registry !! name metadata) →
     ∃ k, 1 ≤ k ∧ prompt_name = name metadata +:+ "_" +:+ pretty k).
Proof.
  unfold unique_prompt_name. case_bool_decide as Hreg.
  2:{ exists (name metadata). apply eq_None_not_Some in Hreg.
      split_and!; try done. intros [? ?]. congruence. }
  destruct (while_registered (size prompt_registry) prompt_registry
              (name metadata) (name metadata) 1) as [n|] eqn:Hloop.
  - exists n. apply while_registered_free in Hloop as [Hfree Hn].
    split_and!; try done.
    + intros Hnone. destruct Hreg. congruence.
    + intros _. destruct Hn as [->|(k & Hk & ->)].
      * destruct Hreg. congruence.
      * by exists k.
  - exfalso. apply while_registered_out in Hloop as [_ Hall].
    pose (names := name metadata ::
                   (suffixed (name metadata) <$> seq 1 (size prompt_registry))).
    assert (length names ≤ size prompt_registry) as Hbound.
    { apply registered_names_bound.
      - apply NoDup_cons. split.
        + intros (k & Hk & _)%list_elem_of_fmap.
          by apply suffixed_not_base in Hk.
        + apply (NoDup_fmap_2 _). apply NoDup_seq.
      - intros n [->|(k & -> & Hk)%list_elem_of_fmap]%elem_of_cons; [done|].
        apply Hall. apply elem_of_seq in Hk. lia. }
    unfold names in Hbound. cbn [length] in Hbound.
    rewrite length_fmap, length_seq in Hbound. lia.
Qed.

(** X18. Registering a prompt never overwrites one: the registry after
    holds every entry it held before, unchanged, and exactly one more;
    and if every entry was filed under the name its metadata carries,
    this is still so afterwards. *)
Theorem register_metadata_keeps_entries prompt_registry metadata :
  ∃ prompt_registry',
    register_metadata prompt_registry metadata = Some prompt_registry' ∧
    prompt_registry ⊆ prompt_registry' ∧
    size prompt_registry' = S (size prompt_registry) ∧
    ((∀ key entry, prompt_registry !! key = Some entry → name entry = key) →
     ∀ key entry, prompt_registry' !! key = Some entry → name entry = key).
Proof.
  unfold register_metadata.
  destruct (unique_prompt_name_free prompt_registry metadata)
    as (prompt_name & -> & Hfree & _).
  eexists. split; [done|]. split_and!.
  - by apply insert_subseteq.
  - by apply map_size_insert_None.
  - intros Hinv key entry.
    rewrite lookup_insert. case_decide as Hkey.
    + intros [= <-]. by subst key.
    + apply Hinv.
Qed.

End PromptNames.

(** * The prompt server properties on the small directory *)

Section PromptDemonstrations.

Import PromptServer PromptDemo.

Lemma loaded_resource_message_kind_witness :
  load_resource_content lib fs "my notes.txt" prompt_files =
    Ok ("body { color: red; }", "text/plain", false) ∧
  false = negb (startswith "text/plain" "text/") ∧
  match create_resource_message lib "my notes.txt" "body { color: red; }"
          "text/plain" false "user" with
  | Ok m =>
    match message_content m with
    | ImageContent data mimeType =>
      data = "body { color: red; }" ∧ mimeType = "text/plain" ∧
      is_image_mime_type "text/plain" = true
    | EmbeddedResource (TextResourceContents uri mimeType text) =>
      text = "body { color: red; }" ∧ mimeType = "text/plain" ∧
      any_url lib (create_resource_uri lib "my notes.txt") = Some uri ∧
      startswith "text/plain" "text/" = true
    | EmbeddedResource (BlobResourceContents uri mimeType blob) =>
      blob = "body { color: red; }" ∧ mimeType = "text/plain" ∧
      any_url lib (create_resource_uri lib "my notes.txt") = Some uri ∧
      is_image_mime_type "text/plain" = false ∧
      startswith "text/plain" "text/" = false
    | TextContent _ => False
    end
  | Err e =>
    e = ValidationError (create_resource_uri lib "my notes.txt") ∧
    is_image_mime_type "text/plain" = false ∧
    any_url lib (create_resource_uri lib "my notes.txt") = None
  end.
Proof.
  split; [vm_compute; reflexivity|].
  apply (loaded_resource_message_kind lib fs "my notes.txt" prompt_files
           "body { color: red; }" "text/plain" false "user").
  vm_compute; reflexivity.
Defined.

Lemma create_messages_with_resources_roles_witness :
  UserMessage (TextContent "An aside") ∈
    create_messages_with_resources lib fs sections prompt_files ∧
  ∃ section, section ∈ sections ∧
    message_role (UserMessage (TextContent "An aside")) =
      cast_message_role (role section) ∧
    (message_role (UserMessage (TextContent "An aside")) = "assistant" ↔
     role section = "assistant").
Proof.
  assert (UserMessage (TextContent "An aside") ∈
            create_messages_with_resources lib fs sections prompt_files) as Hin.
  { vm_compute. do 3 apply list_elem_of_further. apply list_elem_of_here. }
  split; [exact Hin|].
  exact (create_messages_with_resources_roles lib fs prompt_files sections
           (UserMessage (TextContent "An aside")) Hin).
Defined.

End PromptDemonstrations.
